(** * LenixDev/builder: the build script [index.ts]

    A shallow embedding of the asset pipeline: script discovery over a
    directory tree, the per-file transform with its [try]/[catch], the
    manifest and HTML reference rewriters (regular-expression replacement as
    JavaScript performs it) and the orchestrating [main]. *)

From Stdlib Require Import List Ascii String Bool Arith Lia.
Import ListNotations.

(** ** Strings

    A JavaScript string is a sequence of code units; the model keeps them as
    a list of characters so that the list lemmas apply. *)

Definition str := list ascii.

Definition lit (s : string) : str := list_ascii_of_string s.

Definition str_eqb (a b : str) : bool :=
  if list_eq_dec ascii_dec a b then true else false.

(** [s.startsWith(p)] *)
Fixpoint startsWith (s p : str) {struct p} : bool :=
  match p with
  | [] => true
  | c :: p' =>
      match s with
      | [] => false
      | d :: s' => Ascii.eqb c d && startsWith s' p'
      end
  end.

(** [s.endsWith(p)] *)
Definition endsWith (s p : str) : bool := startsWith (rev s) (rev p).

(** [s.replace(/\\/g, '/')]: every backslash becomes a forward slash. *)
Definition backslash : ascii := "\"%char.
Definition slash : ascii := "/"%char.

Definition toSlash (c : ascii) : ascii :=
  if Ascii.eqb c backslash then slash else c.

Definition normalizeSeparators (s : str) : str := map toSlash s.

(** ** Paths

    A path is kept as its components; [path.join], [path.dirname],
    [path.basename] and [path.relative] act on resolved paths, so they are
    list operations.  [render] is the text of a path under the platform's
    separator. *)

Definition path := list str.

Definition path_join (dir : path) (name : str) : path := dir ++ [name].
Definition path_dirname (p : path) : path := removelast p.
Definition path_basename (p : path) : str := last p [].

Definition dotdot : str := lit "..".

Fixpoint path_relative (from to : path) : path :=
  match from, to with
  | f :: from', t :: to' =>
      if str_eqb f t then path_relative from' to'
      else map (fun _ => dotdot) from ++ to
  | _, _ => map (fun _ => dotdot) from ++ to
  end.

Fixpoint render (sep : ascii) (p : path) : str :=
  match p with
  | [] => []
  | [x] => x
  | x :: p' => x ++ sep :: render sep p'
  end.

(** The components of a path given as text: both the forward slash and the
    platform's separator divide it, and empty components are dropped. *)
Fixpoint splitText (sep : ascii) (cur : str) (s : str) : path :=
  match s with
  | [] => match cur with [] => [] | _ :: _ => [rev cur] end
  | c :: s' =>
      if Ascii.eqb c slash || Ascii.eqb c sep then
        match cur with
        | [] => splitText sep [] s'
        | _ :: _ => rev cur :: splitText sep [] s'
        end
      else splitText sep (c :: cur) s'
  end.

(** [path.join(dir, text)]: the components of [text] are appended to [dir],
    [.] stays in place and [..] drops the last component. *)
Definition joinStep (acc : path) (c : str) : path :=
  if str_eqb c (lit ".") then acc
  else if str_eqb c dotdot then removelast acc
  else acc ++ [c].

Definition path_join_text (sep : ascii) (dir : path) (text : str) : path :=
  fold_left joinStep (splitText sep [] text) dir.

(** ** Errors and results

    A call that can throw returns a [result]. *)

Inductive error : Type :=
  | ENOENT
  | ENOTDIR
  | EISDIR
  | EACCES
  | EEXIST
  | SyntaxError
  | TransformError (message : str).

Inductive result (A : Type) : Type :=
  | Ok (a : A)
  | Throw (e : error).

Arguments Ok {A} a.
Arguments Throw {A} e.

(** ** The file system

    A directory tree.  A file without content is one that the process has
    no permission on: reading and writing it fail with [EACCES].  A
    directory may refuse to be listed, and an entry may be one on which
    [fs.statSync] fails (a dangling link, say).  The entries of a directory
    are kept in the order in which the file system reports them.

    The tree stands for a volume on which every path names a file of its
    own, names being compared character by character: links from one path
    to another file are not part of it, nor is a readable file that cannot
    be written. *)

#[warnings="-register-all"]
Inductive node : Type :=
  | File (content : option str)
  | Dir (listable : bool) (entries : list (str * node))
  | Broken (e : error).

Fixpoint assoc (name : str) (es : list (str * node)) : option node :=
  match es with
  | [] => None
  | (k, v) :: es' => if str_eqb k name then Some v else assoc name es'
  end.

Fixpoint update (name : str) (v : node) (es : list (str * node))
  : list (str * node) :=
  match es with
  | [] => []
  | (k, w) :: es' =>
      if str_eqb k name then (k, v) :: es' else (k, w) :: update name v es'
  end.

Fixpoint lookup (p : path) (n : node) : option node :=
  match p with
  | [] => Some n
  | x :: p' =>
      match n with
      | Dir _ es =>
          match assoc x es with
          | Some c => lookup p' c
          | None => None
          end
      | _ => None
      end
  end.

(** The error of a call on a path that does not resolve: [ENOENT] where a
    directory on the way lacks the next name, [ENOTDIR] where the path runs
    through a regular file, and the error of the entry where it runs
    through one on which [stat] fails. *)
Fixpoint lookupError (p : path) (n : node) : error :=
  match p with
  | [] => ENOENT
  | x :: p' =>
      match n with
      | Dir _ es =>
          match assoc x es with
          | Some c => lookupError p' c
          | None => ENOENT
          end
      | File _ => ENOTDIR
      | Broken e => e
      end
  end.

(** [fs.existsSync] *)
Definition existsSync (fs : node) (p : path) : bool :=
  match lookup p fs with
  | Some (Broken _) | None => false
  | Some _ => true
  end.

(** [fs.readFileSync(p, 'utf8')] *)
Definition readFileSync (fs : node) (p : path) : result str :=
  match lookup p fs with
  | None => Throw (lookupError p fs)
  | Some (File (Some c)) => Ok c
  | Some (File None) => Throw EACCES
  | Some (Dir _ _) => Throw EISDIR
  | Some (Broken e) => Throw e
  end.

(** [fs.writeFileSync(p, content)]: creates the file or overwrites it; the
    directory that holds it must exist. *)
Fixpoint writeFileSync (p : path) (content : str) (n : node) : result node :=
  match p with
  | [] =>
      match n with
      | File (Some _) => Ok (File (Some content))
      | File None => Throw EACCES
      | Dir _ _ => Throw EISDIR
      | Broken e => Throw e
      end
  | x :: p' =>
      match n with
      | Dir l es =>
          match assoc x es with
          | Some c =>
              match writeFileSync p' content c with
              | Ok c' => Ok (Dir l (update x c' es))
              | Throw e => Throw e
              end
          | None =>
              match p' with
              | [] => Ok (Dir l (es ++ [(x, File (Some content))]))
              | _ :: _ => Throw ENOENT
              end
          end
      | File _ => Throw ENOTDIR
      | Broken e => Throw e
      end
  end.

(** The chain of fresh directories that a recursive [mkdir] adds. *)
Fixpoint freshDirs (p : path) : node :=
  match p with
  | [] => Dir true []
  | x :: p' => Dir true [(x, freshDirs p')]
  end.

(** [fs.mkdirSync(p, { recursive: true })] *)
Fixpoint mkdirSync (p : path) (n : node) : result node :=
  match p with
  | [] =>
      match n with
      | Dir _ _ => Ok n
      | File _ => Throw EEXIST
      | Broken e => Throw e
      end
  | x :: p' =>
      match n with
      | Dir l es =>
          match assoc x es with
          | Some c =>
              match mkdirSync p' c with
              | Ok c' => Ok (Dir l (update x c' es))
              | Throw e => Throw e
              end
          | None => Ok (Dir l (es ++ [(x, freshDirs p')]))
          end
      | File _ => Throw ENOTDIR
      | Broken e => Throw e
      end
  end.

(** [fs.readdirSync(dir)], given what [dir] resolves to. *)
Definition readdirSync (n : node) : result (list (str * node)) :=
  match n with
  | File _ => Throw ENOTDIR
  | Broken e => Throw e
  | Dir false _ => Throw EACCES
  | Dir true es => Ok es
  end.

(** [fs.statSync(p).isDirectory()], given the entry at [p]. *)
Definition statIsDirectory (n : node) : result bool :=
  match n with
  | Broken e => Throw e
  | Dir _ _ => Ok true
  | File _ => Ok false
  end.

(** ** Regular expressions

    The patterns of the script are sequences of literal characters and
    character classes, without quantifiers or groups.  [parseRegExp] reads
    that fragment of the pattern syntax; [newRegExp] refuses any other source
    text the way the constructor refuses a malformed one. *)

Inductive atom : Type :=
  | Chr (c : ascii)
  | Class (cs : list ascii).

Definition regex := list atom.

Definition squote : ascii := "'"%char.
Definition dquote : ascii := ascii_of_nat 34.
Definition dollar : ascii := "$"%char.

Definition mem (c : ascii) (cs : list ascii) : bool :=
  existsb (Ascii.eqb c) cs.

(** The characters that the script escapes: [. * + ? ^ $ { } ( ) | [ ] \] *)
Definition syntaxCharacters : list ascii := lit ".*+?^${}()|[]\".

Definition isSyntaxCharacter (c : ascii) : bool := mem c syntaxCharacters.

Fixpoint parseRegExp (inClass : option (list ascii)) (src : str)
  : option regex :=
  match src with
  | [] =>
      match inClass with
      | None => Some []
      | Some _ => None
      end
  | c :: src' =>
      match inClass with
      | Some cs =>
          if Ascii.eqb c "]" then
            option_map (cons (Class (rev cs))) (parseRegExp None src')
          else if mem c (lit "\^-") then None
          else parseRegExp (Some (c :: cs)) src'
      | None =>
          if Ascii.eqb c "[" then parseRegExp (Some []) src'
          else if Ascii.eqb c backslash then
            match src' with
            | d :: src'' =>
                if isSyntaxCharacter d
                then option_map (cons (Chr d)) (parseRegExp None src'')
                else None
            | [] => None
            end
          else if isSyntaxCharacter c then None
          else option_map (cons (Chr c)) (parseRegExp None src')
      end
  end.

(** [new RegExp(src, 'g')] *)
Definition newRegExp (src : str) : result regex :=
  match parseRegExp None src with
  | Some r => Ok r
  | None => Throw SyntaxError
  end.

Definition atomMatches (a : atom) (c : ascii) : bool :=
  match a with
  | Chr d => Ascii.eqb d c
  | Class cs => mem c cs
  end.

(** A match of [r] at the start of [s]: the matched text and what follows. *)
Fixpoint matchPrefix (r : regex) (s : str) : option (str * str) :=
  match r with
  | [] => Some ([], s)
  | a :: r' =>
      match s with
      | [] => None
      | c :: s' =>
          if atomMatches a c then
            match matchPrefix r' s' with
            | Some (m, rest) => Some (c :: m, rest)
            | None => None
            end
          else None
      end
  end.

(** [r.test(s)] on a fresh regular expression. *)
Fixpoint test (r : regex) (s : str) : bool :=
  match matchPrefix r s with
  | Some _ => true
  | None =>
      match s with
      | [] => false
      | _ :: s' => test r s'
      end
  end.

(** The replacement text of [String.prototype.replace]: [$$] is a dollar
    sign, [$&] the match, [$`] the text before it and [$'] the text after
    it.  The patterns have no groups, so [$1] and the like stay as they
    are. *)
Fixpoint getSubstitution (repl matched before after : str) : str :=
  match repl with
  | [] => []
  | c :: repl' =>
      if Ascii.eqb c dollar then
        match repl' with
        | d :: repl'' =>
            if Ascii.eqb d dollar then
              dollar :: getSubstitution repl'' matched before after
            else if Ascii.eqb d "&" then
              matched ++ getSubstitution repl'' matched before after
            else if Ascii.eqb d "`" then
              before ++ getSubstitution repl'' matched before after
            else if Ascii.eqb d squote then
              after ++ getSubstitution repl'' matched before after
            else c :: getSubstitution repl' matched before after
        | [] => [c]
        end
      else c :: getSubstitution repl' matched before after
  end.

(** The scan of a global replace: the leftmost match is replaced and the
    scan resumes after it; after an empty match it moves one character on. *)
Fixpoint scan (fuel : nat) (r : regex) (repl : str) (before s : str) : str :=
  match fuel with
  | 0 => s
  | S fuel' =>
      match matchPrefix r s with
      | Some (m, rest) =>
          let out := getSubstitution repl m (rev before) rest in
          match m with
          | [] =>
              match s with
              | [] => out
              | c :: s' => out ++ c :: scan fuel' r repl (c :: before) s'
              end
          | _ :: _ => out ++ scan fuel' r repl (rev m ++ before) rest
          end
      | None =>
          match s with
          | [] => []
          | c :: s' => c :: scan fuel' r repl (c :: before) s'
          end
      end
  end.

(** [s.replace(r, repl)] for a global [r]. *)
Definition replaceAll (r : regex) (repl : str) (s : str) : str :=
  scan (S (List.length s)) r repl [] s.

(** [s.replace(/[.*+?^${}()|[\]\\]/g, '\\$&')] *)
Definition escapeRegExp (s : str) : str :=
  replaceAll [Class syntaxCharacters] [backslash; dollar; "&"%char] s.

Definition quoteClass : str := [ "["%char; squote; dquote; "]"%char ].
Definition quotes : list ascii := [squote; dquote].

(** ** The script's constants and records *)

Definition IGNORE_FILE_PATHS : list str :=
  [lit "build.ts"; lit "build.js"; lit "client/bridge.js"].

Definition IGNORE_DIRS : list str := [lit "node_modules"; lit "build"].

Definition MANIFEST_FILE : str := lit "fxmanifest.lua".

Record BuildResult : Type := mkBuildResult {
  originalPath : str;
  builtPath : str
}.

(** [xs.includes(x)] *)
Definition includes (xs : list str) (x : str) : bool := existsb (str_eqb x) xs.

(** What the script prints, one constructor per message. *)
Inductive event : Type :=
  | LogScanning
  | LogIgnoringDirs
  | LogIgnoringFiles
  | LogNoJsFiles
  | LogFound (n : nat)
  | LogBuilding (rel : str)
  | LogOutput (rel : str)
  | LogErrorBuilding (filePath : path) (e : error)
  | LogBuildComplete
  | LogManifestNotFound
  | LogManifestUpdated
  | LogUpdatingHtml (n : nat)
  | LogReplaced (original built : str)
  | LogHtmlUpdated (rel : str)
  | LogHtmlNoChanges (rel : str).

(** ** The world and its monad

    The script acts on the file system and the console.  A computation takes
    the world and returns the world it leaves with a value or a thrown
    error; what was done before a [throw] stays done. *)

Record world : Type := mkWorld {
  fs : node;
  console : list event
}.

Definition M (A : Type) : Type := world -> world * result A.

Definition ret {A} (a : A) : M A := fun w => (w, Ok a).

Definition bind {A B} (c : M A) (k : A -> M B) : M B :=
  fun w =>
    match c w with
    | (w', Ok a) => k a w'
    | (w', Throw e) => (w', Throw e)
    end.

Declare Scope M_scope.
Delimit Scope M_scope with M.
Notation "x <- c ;; k" := (bind c (fun x => k))
  (at level 61, c at next level, right associativity) : M_scope.
Notation "c ;;; k" := (bind c (fun _ => k))
  (at level 61, right associativity) : M_scope.
Local Open Scope M_scope.

(** [try { c } catch (error) { handler(error) }] *)
Definition tryCatch {A} (c : M A) (handler : error -> M A) : M A :=
  fun w =>
    match c w with
    | (w', Ok a) => (w', Ok a)
    | (w', Throw e) => handler e w'
    end.

Definition liftR {A} (r : result A) : M A := fun w => (w, r).

(** [console.log] and [console.error] *)
Definition log (e : event) : M unit :=
  fun w => (mkWorld (fs w) (console w ++ [e]), Ok tt).

Definition readFileSyncM (p : path) : M str :=
  fun w => (w, readFileSync (fs w) p).

Definition existsSyncM (p : path) : M bool :=
  fun w => (w, Ok (existsSync (fs w) p)).

Definition writeFileSyncM (p : path) (content : str) : M unit :=
  fun w =>
    match writeFileSync p content (fs w) with
    | Ok fs' => (mkWorld fs' (console w), Ok tt)
    | Throw e => (w, Throw e)
    end.

Definition mkdirSyncM (p : path) : M unit :=
  fun w =>
    match mkdirSync p (fs w) with
    | Ok fs' => (mkWorld fs' (console w), Ok tt)
    | Throw e => (w, Throw e)
    end.

(** [xs.forEach(body)] with a state threaded through the callback. *)
Fixpoint foldM {A S} (body : S -> A -> M S) (xs : list A) (s : S) : M S :=
  match xs with
  | [] => ret s
  | x :: xs' => s' <- body s x ;; foldM body xs' s'
  end.

Fixpoint forEachM {A} (body : A -> M unit) (xs : list A) : M unit :=
  match xs with
  | [] => ret tt
  | x :: xs' => body x ;;; forEachM body xs'
  end.

(** ** The script

    What the script takes from its host: the platform's path separator, the
    directory it runs from, and the two external transforms, each of which
    may throw. *)

Record host : Type := mkHost {
  sep : ascii;
  __dirname : path;
  minify : str -> result str;
  obfuscate : str -> result str
}.

Section Script.

Variable h : host.

(** [path.relative(__dirname, p)] as text. *)
Definition relativeText (p : path) : str :=
  render (sep h) (path_relative (__dirname h) p).

Definition shouldIgnoreFile (filePath : path) : bool :=
  let relativePath := normalizeSeparators (relativeText filePath) in
  existsb
    (fun ignorePath =>
       let normalizedIgnorePath := normalizeSeparators ignorePath in
       str_eqb relativePath normalizedIgnorePath)
    IGNORE_FILE_PATHS.

(** [!file.startsWith('.') && !IGNORE_DIRS.includes(file)]: the directories
    that the walks enter. *)
Definition entered (file : str) : bool :=
  negb (startsWith file (lit ".")) && negb (includes IGNORE_DIRS file).

(** The callback of [files.forEach] in the two walks: [walkInto] is the
    recursive call, [wanted] the test on a file's name and path; [child] is
    the entry at [filePath]. *)
Fixpoint forEachEntry (walkInto : path -> node -> list path -> result (list path))
  (wanted : str -> path -> bool) (dir : path) (files : list (str * node))
  (fileList : list path) {struct files} : result (list path) :=
  match files with
  | [] => Ok fileList
  | (file, child) :: files' =>
      let filePath := path_join dir file in
      match statIsDirectory child with
      | Throw e => Throw e
      | Ok true =>
          if entered file then
            match walkInto filePath child fileList with
            | Ok fileList' =>
                forEachEntry walkInto wanted dir files' fileList'
            | Throw e => Throw e
            end
          else forEachEntry walkInto wanted dir files' fileList
      | Ok false =>
          if wanted file filePath
          then forEachEntry walkInto wanted dir files' (fileList ++ [filePath])
          else forEachEntry walkInto wanted dir files' fileList
      end
  end.

(** The walk that [findJsFiles] and [findHtmlFiles] share: [n] is what [dir]
    resolves to, and the match on it is [fs.readdirSync(dir)] (see
    [walk_readdirSync]). *)
Fixpoint walk (wanted : str -> path -> bool) (dir : path) (n : node)
  (fileList : list path) {struct n} : result (list path) :=
  match n with
  | Dir true files => forEachEntry (walk wanted) wanted dir files fileList
  | Dir false _ => Throw EACCES
  | File _ => Throw ENOTDIR
  | Broken e => Throw e
  end.

Definition wantedJs (file : str) (filePath : path) : bool :=
  endsWith file (lit ".js") && negb (shouldIgnoreFile filePath).

Definition wantedHtml (file : str) (filePath : path) : bool :=
  endsWith file (lit ".html").

Definition findJsFiles (root : node) (dir : path) : result (list path) :=
  match lookup dir root with
  | None => Throw (lookupError dir root)
  | Some n => walk wantedJs dir n []
  end.

Definition findHtmlFiles (root : node) (dir : path) : result (list path) :=
  match lookup dir root with
  | None => Throw (lookupError dir root)
  | Some n => walk wantedHtml dir n []
  end.

(** The body of the [try] in [buildFile]. *)
Definition buildFileBody (filePath : path) : M BuildResult :=
  code <- readFileSyncM filePath ;;
  let dir := path_dirname filePath in
  let fileName := path_basename filePath in
  let buildDir := path_join dir (lit "build") in
  let outputPath := path_join buildDir fileName in
  log (LogBuilding (relativeText filePath)) ;;;
  minified <- liftR (minify h code) ;;
  obfuscated <- liftR (obfuscate h minified) ;;
  present <- existsSyncM buildDir ;;
  (if negb present then mkdirSyncM buildDir else ret tt) ;;;
  writeFileSyncM outputPath obfuscated ;;;
  log (LogOutput (relativeText outputPath)) ;;;
  ret {| originalPath := normalizeSeparators (relativeText filePath);
         builtPath := normalizeSeparators (relativeText outputPath) |}.

Definition buildFile (filePath : path) : M (option BuildResult) :=
  tryCatch
    (r <- buildFileBody filePath ;; ret (Some r))
    (fun e => log (LogErrorBuilding filePath e) ;;; ret None).

(** The loop of [main] over the discovered files. *)
Fixpoint buildAll (jsFiles : list path) (builtFiles : list BuildResult)
  : M (list BuildResult) :=
  match jsFiles with
  | [] => ret builtFiles
  | file :: jsFiles' =>
      r <- buildFile file ;;
      match r with
      | Some b => buildAll jsFiles' (builtFiles ++ [b])
      | None => buildAll jsFiles' builtFiles
      end
  end.

(** One turn of the [forEach] of [updateManifest]. *)
Definition rewriteManifest (manifestContent : str) (b : BuildResult)
  : result str :=
  let escapedOriginal := escapeRegExp (originalPath b) in
  match newRegExp (quoteClass ++ escapedOriginal ++ quoteClass) with
  | Ok regex =>
      Ok (replaceAll regex (squote :: builtPath b ++ [squote]) manifestContent)
  | Throw e => Throw e
  end.

(** The [forEach] of [updateManifest] on the manifest's text. *)
Fixpoint rewriteManifestAll (builtFiles : list BuildResult)
  (manifestContent : str) : result str :=
  match builtFiles with
  | [] => Ok manifestContent
  | b :: builtFiles' =>
      match rewriteManifest manifestContent b with
      | Ok manifestContent' => rewriteManifestAll builtFiles' manifestContent'
      | Throw e => Throw e
      end
  end.

Definition updateManifest (builtFiles : list BuildResult) : M unit :=
  let manifestPath := path_join (__dirname h) MANIFEST_FILE in
  present <- existsSyncM manifestPath ;;
  if negb present then log LogManifestNotFound
  else
    manifestContent <- readFileSyncM manifestPath ;;
    manifestContent' <- liftR (rewriteManifestAll builtFiles manifestContent) ;;
    writeFileSyncM manifestPath manifestContent' ;;;
    log LogManifestUpdated.

Definition htmlQuoteClass : str := [ "["%char; dquote; squote; "]"%char ].

(** The state of the loop over one HTML file: its text and [updated]. *)
Definition htmlState : Type := (str * bool)%type.

(** One attribute and one pair of [pathsToTry]. *)
Definition substitute (attr : str) (original built : str) (st : htmlState)
  : M htmlState :=
  re <- liftR (newRegExp
                 (attr ++ htmlQuoteClass ++ escapeRegExp original
                       ++ htmlQuoteClass)) ;;
  if test re (fst st) then
    log (LogReplaced original built) ;;;
    ret (replaceAll re (attr ++ dquote :: built ++ [dquote]) (fst st), true)
  else ret st.

Definition tryPath (st : htmlState) (p : str * str) : M htmlState :=
  let (original, built) := p in
  st' <- substitute (lit "src=") original built st ;;
  substitute (lit "href=") original built st'.

(** [path.relative(htmlDir, path.join(__dirname, p)).replace(/\\/g, '/')] *)
Definition relativeFrom (htmlDir : path) (p : str) : str :=
  normalizeSeparators
    (render (sep h)
       (path_relative htmlDir (path_join_text (sep h) (__dirname h) p))).

Definition rewriteForMapping (htmlDir : path) (st : htmlState)
  (b : BuildResult) : M htmlState :=
  let relativeOriginalPath :=
    relativeFrom htmlDir (originalPath b) in
  let relativeBuiltPath :=
    relativeFrom htmlDir (builtPath b) in
  let pathsToTry :=
    [ (originalPath b, builtPath b);
      (relativeOriginalPath, relativeBuiltPath) ] in
  foldM tryPath pathsToTry st.

Definition updateHtmlFile (builtFiles : list BuildResult) (htmlPath : path)
  : M unit :=
  htmlContent <- readFileSyncM htmlPath ;;
  let htmlDir := path_dirname htmlPath in
  st <- foldM (rewriteForMapping htmlDir) builtFiles (htmlContent, false) ;;
  if snd st then
    writeFileSyncM htmlPath (fst st) ;;;
    log (LogHtmlUpdated (relativeText htmlPath))
  else log (LogHtmlNoChanges (relativeText htmlPath)).

Definition updateHtmlFiles (builtFiles : list BuildResult) : M unit :=
  htmlFiles <- (fun w => (w, findHtmlFiles (fs w) (__dirname h))) ;;
  if Nat.eqb (List.length htmlFiles) 0 then ret tt
  else
    log (LogUpdatingHtml (List.length htmlFiles)) ;;;
    forEachM (updateHtmlFile builtFiles) htmlFiles.

Definition main : M unit :=
  log LogScanning ;;;
  log LogIgnoringDirs ;;;
  log LogIgnoringFiles ;;;
  jsFiles <- (fun w => (w, findJsFiles (fs w) (__dirname h))) ;;
  if Nat.eqb (List.length jsFiles) 0 then log LogNoJsFiles
  else
    log (LogFound (List.length jsFiles)) ;;;
    builtFiles <- buildAll jsFiles [] ;;
    log LogBuildComplete ;;;
    if Nat.ltb 0 (List.length builtFiles) then
      updateManifest builtFiles ;;;
      updateHtmlFiles builtFiles
    else ret tt.

End Script.

(** The error of the first call that fails in a walk from this node, the
    entries of a directory being taken in the order of its listing:
    [readdirSync] on what is not a directory or cannot be listed,
    [statSync] on an entry, or a call of the walk into a directory that is
    entered.  [None] when no call fails. *)
Fixpoint firstFault (n : node) : option error :=
  match n with
  | File _ => Some ENOTDIR
  | Broken e => Some e
  | Dir false _ => Some EACCES
  | Dir true es =>
      (fix entries (es : list (str * node)) : option error :=
         match es with
         | [] => None
         | (file, child) :: es' =>
             match child with
             | File _ => entries es'
             | Broken e => Some e
             | Dir _ _ =>
                 if entered file then
                   match firstFault child with
                   | Some e => Some e
                   | None => entries es'
                   end
                 else entries es'
             end
         end) es
  end.

(** ** The manifest rewrite in the specification's words

    The text is read from left to right.  Where the original path stands
    between two quote characters, the built path between single quotes is
    written in its place and reading resumes after the closing quote; any
    other character is kept. *)

Definition quotedAt (original : str) (t : str) : bool :=
  match t with
  | [] => false
  | q1 :: t' =>
      mem q1 quotes && startsWith t' original
      && match skipn (List.length original) t' with
         | q2 :: _ => mem q2 quotes
         | [] => false
         end
  end.

Fixpoint replaceQuotedFrom (skip : nat) (original built : str) (t : str)
  : str :=
  match t with
  | [] => []
  | c :: t' =>
      match skip with
      | S skip' => replaceQuotedFrom skip' original built t'
      | 0 =>
          if quotedAt original t then
            squote :: built
              ++ squote
                   :: replaceQuotedFrom (S (List.length original))
                        original built t'
          else c :: replaceQuotedFrom 0 original built t'
      end
  end.

Definition replaceQuoted (original built : str) (t : str) : str :=
  replaceQuotedFrom 0 original built t.

(** ** A resource tree to run the script on

    The layout of the project's README: [main.js] and [web/script.js], next
    to a manifest, an HTML page, the bridge script that is never built and a
    [node_modules] directory. *)

Definition file (content : string) : node := File (Some (lit content)).

Definition resource : node :=
  Dir true
    [ (lit "main.js", file "let a = 1;");
      (lit "fxmanifest.lua",
       file "client_scripts { 'main.js', 'web/script.js' }");
      (lit "index.html", file "<script src='web/script.js'></script>");
      (lit "node_modules", Dir true [ (lit "dep.js", file "dep") ]);
      (lit "client", Dir true [ (lit "bridge.js", file "bridge") ]);
      (lit "web", Dir true [ (lit "script.js", file "let b = 2;") ]) ].

Definition disk : node :=
  Dir true [ (lit "srv", Dir true [ (lit "resource", resource) ]) ].

(** A tree whose first script cannot be read. *)
Definition flakyDisk : node :=
  Dir true
    [ (lit "srv",
       Dir true
         [ (lit "resource",
            Dir true [ (lit "bad.js", File None);
                       (lit "good.js", file "ok") ]) ]) ].

(** A tree on a POSIX disk with a script whose name holds a backslash; the
    file system lists it before [a.js]. *)
Definition collidingDisk : node :=
  Dir true
    [ (lit "srv",
       Dir true
         [ (lit "resource",
            Dir true [ (lit "build\a.js", file "first");
                       (lit "a.js", file "second") ]) ]) ].

(** The mappings that the script makes of it. *)
Definition collidingMappings : list BuildResult :=
  [ {| originalPath := lit "build/a.js";
       builtPath := lit "build/build/a.js" |};
    {| originalPath := lit "a.js"; builtPath := lit "build/a.js" |} ].

(** [<script src="p"></script>] *)
Definition scriptTag (p : string) : str :=
  lit "<script src=" ++ dquote :: lit p ++ dquote :: lit "></script>".

(** A script whose name holds the replacement pattern [$&], and the
    mapping that the script makes of it. *)
Definition dollarDisk : node :=
  Dir true
    [ (lit "srv",
       Dir true
         [ (lit "resource", Dir true [ (lit "a$&.js", file "code") ]) ]) ].

Definition dollarMapping : BuildResult :=
  {| originalPath := lit "a$&.js"; builtPath := lit "build/a$&.js" |}.

Definition mainMapping : BuildResult :=
  {| originalPath := lit "main.js"; builtPath := lit "build/main.js" |}.

Definition posix : host :=
  {| sep := slash;
     __dirname := [lit "srv"; lit "resource"];
     minify := fun code => Ok (lit "min:" ++ code);
     obfuscate := fun code => Ok (lit "obf:" ++ code) |}.

(** * The vocabulary of the properties *)

(** ** Replacement *)

(** The scan from a position of the text, [before] being the text already
    passed, latest character first. *)
Definition scanFrom (r : regex) (repl : str) (before s : str) : str :=
  scan (S (List.length s)) r repl before s.

(** Escaping puts a backslash before each syntax character. *)
Definition escapeChar (c : ascii) : str :=
  if isSyntaxCharacter c then [backslash; c] else [c].

(** The pattern of a quoted path after an attribute prefix. *)
Definition quoted (qs : list ascii) (pre o : str) : regex :=
  map Chr pre ++ Class qs :: map Chr o ++ [Class qs].

(** ** Discovery *)

(** Induction on a directory tree, through the entries of a directory. *)
Section NodeInduction.

Variable P : node -> Prop.
Hypothesis P_file : forall c, P (File c).
Hypothesis P_dir :
  forall l es, Forall (fun e => P (snd e)) es -> P (Dir l es).
Hypothesis P_broken : forall e, P (Broken e).

Fixpoint node_induction (n : node) : P n :=
  match n with
  | File c => P_file c
  | Dir l es =>
      P_dir l es
        ((fix entries (es : list (str * node))
            : Forall (fun e => P (snd e)) es :=
            match es with
            | [] => Forall_nil _
            | e :: es' => Forall_cons e (node_induction (snd e)) (entries es')
            end) es)
  | Broken e => P_broken e
  end.

End NodeInduction.

(** [p] was found below [dir]: every directory on the way from [dir] to it
    was entered, and its name and path passed the test. *)
Definition foundBelow (wanted : str -> path -> bool) (dir p : path) : Prop :=
  exists rel,
    p = dir ++ rel /\ rel <> []
    /\ Forall (fun d => entered d = true) (removelast rel)
    /\ wanted (last rel []) p = true.

Definition walkSound (wanted : str -> path -> bool)
  (visit : path -> list path -> result (list path)) : Prop :=
  forall dir acc out,
    visit dir acc = Ok out ->
    exists new, out = acc ++ new /\ Forall (foundBelow wanted dir) new.

(** ** The transform of one file *)

(** Where [buildFile] writes: [path.join(path.join(dir, 'build'), fileName)]. *)
Definition outputPathOf (filePath : path) : path :=
  path_join (path_join (path_dirname filePath) (lit "build"))
    (path_basename filePath).

(** ** The orchestrator *)

(** The world in which the loop of [main] starts. *)
Definition afterScan (w : world) (found : nat) : world :=
  mkWorld (fs w)
    ((((console w ++ [LogScanning]) ++ [LogIgnoringDirs])
        ++ [LogIgnoringFiles]) ++ [LogFound found]).

(** ** The HTML rewriter *)

Definition htmlQuotes : list ascii := [dquote; squote].

(** The two entries of [pathsToTry] for a mapping. *)
Definition pathsToTry (h : host) (htmlDir : path) (b : BuildResult)
  : list (str * str) :=
  [ (originalPath b, builtPath b);
    (relativeFrom h htmlDir (originalPath b),
     relativeFrom h htmlDir (builtPath b)) ].

(** A [src] or [href] attribute of the text holds [original]. *)
Definition attributeMatches (t original : str) : bool :=
  test (quoted htmlQuotes (lit "src=") original) t
  || test (quoted htmlQuotes (lit "href=") original) t.

(** Some attribute of the text holds the original path of some mapping, in
    one of its two forms. *)
Definition matchesAny (h : host) (htmlDir : path)
  (builtFiles : list BuildResult) (t : str) : bool :=
  existsb
    (fun b =>
       existsb (fun p => attributeMatches t (fst p)) (pathsToTry h htmlDir b))
    builtFiles.

(** The substitutions of [updateHtmlFiles] for one file's text. *)
Definition htmlPass (h : host) (htmlDir : path)
  (builtFiles : list BuildResult) (t : str) : M htmlState :=
  foldM (rewriteForMapping h htmlDir) builtFiles (t, false).

Definition isReplaced (e : event) : Prop := exists o b, e = LogReplaced o b.

(** What a run of substitutions does to the world and to the loop's state:
    the file system is as it was, one message was printed per substitution,
    and [updated] is set exactly when there was one. *)
Definition progress (w : world) (st : htmlState) (w1 : world)
  (st1 : htmlState) : Prop :=
  fs w1 = fs w
  /\ exists evs,
       console w1 = console w ++ evs
       /\ Forall isReplaced evs
       /\ (snd st1 = true -> snd st = true \/ evs <> [])
       /\ (snd st1 = false -> evs = [] /\ st1 = st).

(** ** The manifest rewriter *)

(** The replacement text of the manifest rewriter. *)
Definition singleQuoted (built : str) : str := squote :: built ++ [squote].

(** The pattern of the manifest rewriter. *)
Definition manifestPattern (original : str) : regex :=
  quoted quotes [] original.

(** ** What remains of the original paths in the manifest *)

Definition quoteFree (s : str) : Prop := forall c, In c quotes -> ~ In c s.

(** The text holds [o] between two quote characters. *)
Definition occurs (o t : str) : Prop :=
  exists pre q1 q2 post,
    In q1 quotes /\ In q2 quotes /\ t = pre ++ q1 :: o ++ q2 :: post.

(** The text holds [x] and [y] between quote characters, the one that
    closes [x] being the one that opens [y]. *)
Definition adjacent (x y t : str) : Prop :=
  exists pre q1 q2 q3 post,
    In q1 quotes /\ In q2 quotes /\ In q3 quotes
    /\ t = pre ++ q1 :: x ++ q2 :: y ++ q3 :: post.

(** Two quoted occurrences of [o] share a quote character. *)
Definition sharedQuote (o t : str) : Prop := adjacent o o t.

(** No two of the paths [O] stand quoted next to each other in the text. *)
Definition noAdjacent (O : list str) (t : str) : Prop :=
  forall x y, In x O -> In y O -> ~ adjacent x y t.

(** The rewrite of the whole list in the specification's words. *)
Definition replaceQuotedAll (builtFiles : list BuildResult) (t : str) : str :=
  fold_left (fun t b => replaceQuoted (originalPath b) (builtPath b) t)
    builtFiles t.

(** Deciding the side conditions on a given text. *)
Definition adjacentPattern (x y : str) : regex :=
  Class quotes :: map Chr x ++ Class quotes :: map Chr y ++ [Class quotes].

(** ** What remains of the original paths in an HTML text *)

(** The pattern and the replacement text of one substitution. *)
Definition htmlPattern (attr original : str) : regex :=
  quoted htmlQuotes attr original.

Definition attributeText (attr built : str) : str :=
  attr ++ dquote :: built ++ [dquote].

Definition replaceAttribute (attr original built : str) (t : str) : str :=
  replaceAll (htmlPattern attr original) (attributeText attr built) t.

(** The text holds the attribute [attr] with the value [x]. *)
Definition occursAfter (attr x t : str) : Prop :=
  exists pre q1 q2 post,
    In q1 quotes /\ In q2 quotes /\ t = pre ++ attr ++ q1 :: x ++ q2 :: post.

(** Whether the first quote character of [a ++ q :: rest] opens a match of
    the attribute [attr] with the value [o]. *)
Definition opensMatch (attr o a : str) (q : ascii) (rest : str) : bool :=
  endsWith a attr && quotedAt o (q :: rest).

(** The substitutions of one pass, in the order in which they are tried:
    attribute name, original path, built path. *)
Definition substitutions (h : host) (htmlDir : path)
  (builtFiles : list BuildResult) : list (str * (str * str)) :=
  flat_map
    (fun b =>
       flat_map
         (fun p => [ (lit "src=", p); (lit "href=", p) ])
         (pathsToTry h htmlDir b))
    builtFiles.

Definition applySubstitutions (subs : list (str * (str * str))) (t : str)
  : str :=
  fold_left
    (fun t s => replaceAttribute (fst s) (fst (snd s)) (snd (snd s)) t)
    subs t.

(** The two forms of every mapping, as the pass tries them. *)
Definition forms (h : host) (htmlDir : path) (builtFiles : list BuildResult)
  : list (str * str) :=
  flat_map (pathsToTry h htmlDir) builtFiles.

(** A pair of [pathsToTry] that the pass can replace for good: no quote
    character in it, no dollar sign in the built path, which does not end
    in an attribute name and is not the original path of a pair. *)
Definition cleanForm (all : list (str * str)) (p : str * str) : bool :=
  negb (mem squote (fst p) || mem dquote (fst p))
  && negb (mem squote (snd p) || mem dquote (snd p))
  && negb (mem dollar (snd p))
  && negb (endsWith (snd p) (lit "src="))
  && negb (endsWith (snd p) (lit "href="))
  && forallb (fun p' => negb (str_eqb (fst p') (snd p))) all.

Definition cleanMappings (h : host) (htmlDir : path)
  (builtFiles : list BuildResult) : bool :=
  forallb (cleanForm (forms h htmlDir builtFiles)) (forms h htmlDir builtFiles).

(** ** Well-formed trees *)

(** No name stands twice in a list of names. *)
Fixpoint distinct (names : list str) : bool :=
  match names with
  | [] => true
  | x :: names' => negb (includes names' x) && distinct names'
  end.

(** No directory of the tree holds two entries of the same name. *)
Fixpoint uniqueNames (n : node) : bool :=
  match n with
  | Dir _ es =>
      distinct (map fst es) && forallb (fun e => uniqueNames (snd e)) es
  | File _ | Broken _ => true
  end.

(** A walk from [n] adds each path once, and only paths below where it
    starts. *)
Definition walkDistinct (wanted : str -> path -> bool) (n : node) : Prop :=
  forall d acc out,
    walk wanted d n acc = Ok out ->
    exists new,
      out = acc ++ new /\ NoDup new
      /\ forall p, In p new -> exists rel, p = d ++ rel.

(** ** The mappings of a run *)

(** The [BuildResult] that [buildFile] returns for a file it built. *)
Definition mappingOf (h : host) (filePath : path) : BuildResult :=
  {| originalPath := normalizeSeparators (relativeText h filePath);
     builtPath :=
       normalizeSeparators (relativeText h (outputPathOf filePath)) |}.

(** [l] is [l'] with some elements left out, the others in their order. *)
Inductive subsequence {A : Type} : list A -> list A -> Prop :=
  | subsequence_nil : subsequence [] []
  | subsequence_skip (x : A) (l l' : list A) :
      subsequence l l' -> subsequence l (x :: l')
  | subsequence_keep (x : A) (l l' : list A) :
      subsequence l l' -> subsequence (x :: l) (x :: l').

(** ** Paths that survive being written as text *)

(** A name that is a single component however it is read back: not empty,
    not [.] or [..], and with no slash or backslash in it. *)
Definition plainName (c : str) : bool :=
  negb (mem slash c) && negb (mem backslash c)
  && negb (str_eqb c []) && negb (str_eqb c (lit "."))
  && negb (str_eqb c dotdot).

(** ** Hosts and trees for the failure cases *)

(** A host whose minifier rejects every script. *)
Definition rejecting : host :=
  {| sep := slash;
     __dirname := [lit "srv"; lit "resource"];
     minify := fun _ => Throw (TransformError (lit "Unexpected token"));
     obfuscate := fun code => Ok code |}.

(** A resource in which two calls of a walk would fail: the listing of
    [private], and after it [stat] on a link whose target is gone.  The
    directory in [node_modules] that cannot be listed is never looked
    at. *)
Definition faultyDisk : node :=
  Dir true
    [ (lit "srv",
       Dir true
         [ (lit "resource",
            Dir true
              [ (lit "main.js", file "let a = 1;");
                (lit "node_modules",
                 Dir true [ (lit "sealed", Dir false []) ]);
                (lit "private", Dir false []);
                (lit "web", Dir true [ (lit "gone.js", Broken ENOENT) ]) ]) ]) ].

(** A resource whose manifest is there but cannot be read, with three HTML
    files of which the second is unreadable too. *)
Definition lockedDisk : node :=
  Dir true
    [ (lit "srv",
       Dir true
         [ (lit "resource",
            Dir true
              [ (lit "main.js", file "let a = 1;");
                (lit "fxmanifest.lua", File None);
                (lit "a.html", file "<script src='main.js'></script>");
                (lit "b.html", File None);
                (lit "c.html", file "<script src='main.js'></script>") ]) ]) ].

(** ** Where a quoted occurrence opens *)


(** * Properties *)

(** ** Strings and paths *)

Lemma str_eqb_eq (a b : str) : str_eqb a b = true <-> a = b.
Proof.
  unfold str_eqb. destruct (list_eq_dec ascii_dec a b); split; congruence.
Qed.

Lemma str_eqb_refl (a : str) : str_eqb a a = true.
Proof. apply str_eqb_eq. reflexivity. Qed.

Lemma str_eqb_neq (a b : str) : str_eqb a b = false <-> a <> b.
Proof.
  unfold str_eqb. destruct (list_eq_dec ascii_dec a b); split; congruence.
Qed.

Lemma startsWith_spec (s p : str) :
  startsWith s p = true <-> exists t, s = p ++ t.
Proof.
  revert s. induction p as [|c p IH]; intros s; simpl.
  - split; [intros _; exists s; reflexivity | reflexivity].
  - destruct s as [|d s].
    + split; [discriminate | intros [t Ht]; discriminate].
    + rewrite andb_true_iff, Ascii.eqb_eq, IH. split.
      * intros [-> [t ->]]. exists t. reflexivity.
      * intros [t Ht]. injection Ht as -> ->. split; [reflexivity | eauto].
Qed.

Lemma endsWith_spec (s p : str) :
  endsWith s p = true <-> exists t, s = t ++ p.
Proof.
  unfold endsWith. rewrite startsWith_spec. split.
  - intros [t Ht]. exists (rev t).
    rewrite <- (rev_involutive s), Ht, rev_app_distr, rev_involutive.
    reflexivity.
  - intros [t ->]. exists (rev t). apply rev_app_distr.
Qed.

Lemma path_relative_under (root rel : path) :
  path_relative root (root ++ rel) = rel.
Proof.
  induction root as [|r root IH]; simpl.
  - destruct rel; reflexivity.
  - rewrite str_eqb_refl. exact IH.
Qed.

Lemma path_dirname_join (dir : path) (name : str) :
  path_dirname (path_join dir name) = dir.
Proof. apply removelast_last. Qed.

Lemma path_basename_join (dir : path) (name : str) :
  path_basename (path_join dir name) = name.
Proof. apply last_last. Qed.

(** ** Regular expressions and replacement *)

Lemma mem_In (c : ascii) (cs : list ascii) : mem c cs = true <-> In c cs.
Proof.
  unfold mem. rewrite existsb_exists. split.
  - intros [x [Hin Hx]]. apply Ascii.eqb_eq in Hx. subst. exact Hin.
  - intros Hin. exists c. split; [exact Hin | apply Ascii.eqb_refl].
Qed.

Lemma not_In_mem (c : ascii) (s : str) : mem c s = false -> ~ In c s.
Proof. intros H Hin. apply mem_In in Hin. congruence. Qed.

Lemma matchPrefix_app (r : regex) (s m rest : str) :
  matchPrefix r s = Some (m, rest) -> s = m ++ rest.
Proof.
  revert s m rest. induction r as [|a r IH]; intros s m rest; simpl.
  - intros [= <- <-]. reflexivity.
  - destruct s as [|c s]; [discriminate|].
    destruct (atomMatches a c); [|discriminate].
    destruct (matchPrefix r s) as [[m' rest']|] eqn:E; [|discriminate].
    intros [= <- <-]. simpl. f_equal. apply IH. exact E.
Qed.

(** The scan does not depend on its fuel once there is enough of it. *)
Lemma scan_fuel (r : regex) (repl : str) (f1 f2 : nat) :
  forall before s,
    List.length s < f1 -> List.length s < f2 ->
    scan f1 r repl before s = scan f2 r repl before s.
Proof.
  revert f2. induction f1 as [|f1 IH]; intros f2 before s H1 H2; [lia|].
  destruct f2 as [|f2]; [lia|]. simpl.
  destruct (matchPrefix r s) as [[m rest]|] eqn:E.
  - apply matchPrefix_app in E. destruct m as [|c m].
    + destruct s as [|d s]; [reflexivity|].
      f_equal. f_equal. simpl in H1, H2. apply IH; lia.
    + f_equal. subst s. simpl in H1, H2. rewrite length_app in H1, H2.
      apply IH; lia.
  - destruct s as [|d s]; [reflexivity|].
    f_equal. simpl in H1, H2. apply IH; lia.
Qed.

Lemma replaceAll_scanFrom (r : regex) (repl s : str) :
  replaceAll r repl s = scanFrom r repl [] s.
Proof. reflexivity. Qed.

Lemma scanFrom_nil (r : regex) (repl before : str) :
  r <> [] -> scanFrom r repl before [] = [].
Proof.
  intros Hr. unfold scanFrom. simpl. destruct r; [congruence | reflexivity].
Qed.

Lemma scan_S (f : nat) (r : regex) (repl before s : str) :
  scan (S f) r repl before s =
  match matchPrefix r s with
  | Some (m, rest) =>
      let out := getSubstitution repl m (rev before) rest in
      match m with
      | [] =>
          match s with
          | [] => out
          | c :: s' => out ++ c :: scan f r repl (c :: before) s'
          end
      | _ :: _ => out ++ scan f r repl (rev m ++ before) rest
      end
  | None =>
      match s with
      | [] => []
      | c :: s' => c :: scan f r repl (c :: before) s'
      end
  end.
Proof. reflexivity. Qed.

Lemma scanFrom_miss (r : regex) (repl before : str) (c : ascii) (s : str) :
  matchPrefix r (c :: s) = None ->
  scanFrom r repl before (c :: s) = c :: scanFrom r repl (c :: before) s.
Proof.
  intros E. unfold scanFrom. rewrite scan_S, E. reflexivity.
Qed.

Lemma scanFrom_hit (r : regex) (repl before s m rest : str) :
  matchPrefix r s = Some (m, rest) -> m <> [] ->
  scanFrom r repl before s =
  getSubstitution repl m (rev before) rest
    ++ scanFrom r repl (rev m ++ before) rest.
Proof.
  intros E Hm. unfold scanFrom.
  pose proof (matchPrefix_app _ _ _ _ E) as Hs.
  rewrite scan_S, E. destruct m as [|c m]; [congruence|].
  cbv zeta. f_equal.
  apply scan_fuel; [subst s; simpl; rewrite length_app; lia | lia].
Qed.

Lemma escape_scanFrom (before s : str) :
  scanFrom [Class syntaxCharacters] [backslash; dollar; "&"%char] before s
  = flat_map escapeChar s.
Proof.
  revert before. induction s as [|c s IH]; intros before.
  - apply scanFrom_nil. discriminate.
  - simpl flat_map. unfold escapeChar at 1.
    destruct (isSyntaxCharacter c) eqn:Hc.
    + rewrite (scanFrom_hit _ _ _ _ [c] s).
      * rewrite IH. reflexivity.
      * cbn [matchPrefix atomMatches]. unfold isSyntaxCharacter in Hc.
        rewrite Hc. reflexivity.
      * discriminate.
    + rewrite scanFrom_miss.
      * rewrite IH. reflexivity.
      * cbn [matchPrefix atomMatches]. unfold isSyntaxCharacter in Hc.
        rewrite Hc. reflexivity.
Qed.

Lemma escapeRegExp_flat_map (s : str) :
  escapeRegExp s = flat_map escapeChar s.
Proof. apply escape_scanFrom. Qed.

Lemma option_map_cons_app (x : atom) (l : regex) (o : option regex) :
  option_map (cons x) (option_map (app l) o) = option_map (app (x :: l)) o.
Proof. destruct o; reflexivity. Qed.

Lemma plain_not_bracket (c : ascii) :
  isSyntaxCharacter c = false ->
  Ascii.eqb c "[" = false /\ Ascii.eqb c backslash = false.
Proof.
  intros Hc. split.
  - destruct (Ascii.eqb c "[") eqn:E; [|reflexivity].
    apply Ascii.eqb_eq in E. subst c. discriminate.
  - destruct (Ascii.eqb c backslash) eqn:E; [|reflexivity].
    apply Ascii.eqb_eq in E. subst c. discriminate.
Qed.

(** An escaped text is read back as the literal characters of the text. *)
Lemma parseRegExp_escaped (o rest : str) :
  parseRegExp None (flat_map escapeChar o ++ rest)
  = option_map (app (map Chr o)) (parseRegExp None rest).
Proof.
  induction o as [|c o IH].
  - simpl. destruct (parseRegExp None rest); reflexivity.
  - simpl flat_map. unfold escapeChar at 1.
    destruct (isSyntaxCharacter c) eqn:Hc.
    + cbn [app parseRegExp].
      change (Ascii.eqb backslash "[") with false.
      change (Ascii.eqb backslash backslash) with true.
      cbv iota. rewrite Hc, IH. apply option_map_cons_app.
    + cbn [app parseRegExp].
      destruct (plain_not_bracket _ Hc) as [-> ->].
      rewrite Hc, IH. apply option_map_cons_app.
Qed.

(** A text without syntax characters is read as itself. *)
Lemma parseRegExp_plain (a rest : str) :
  forallb (fun c => negb (isSyntaxCharacter c)) a = true ->
  parseRegExp None (a ++ rest)
  = option_map (app (map Chr a)) (parseRegExp None rest).
Proof.
  induction a as [|c a IH]; intros Ha.
  - simpl. destruct (parseRegExp None rest); reflexivity.
  - simpl in Ha. apply andb_true_iff in Ha as [Hc Ha].
    apply negb_true_iff in Hc. cbn [app parseRegExp].
    destruct (plain_not_bracket _ Hc) as [-> ->].
    rewrite Hc, (IH Ha). apply option_map_cons_app.
Qed.

Lemma newRegExp_manifest (o : str) :
  newRegExp (quoteClass ++ escapeRegExp o ++ quoteClass)
  = Ok (quoted quotes [] o).
Proof.
  unfold newRegExp, quoteClass. rewrite escapeRegExp_flat_map.
  cbn [app parseRegExp].
  change (Ascii.eqb "[" "[") with true. cbv iota.
  cbn [parseRegExp].
  change (Ascii.eqb squote "]") with false.
  change (mem squote (lit "\^-")) with false.
  change (Ascii.eqb dquote "]") with false.
  change (mem dquote (lit "\^-")) with false.
  change (Ascii.eqb "]" "]") with true. cbv iota.
  rewrite parseRegExp_escaped. reflexivity.
Qed.

Lemma newRegExp_html (attr o : str) :
  forallb (fun c => negb (isSyntaxCharacter c)) attr = true ->
  newRegExp (attr ++ htmlQuoteClass ++ escapeRegExp o ++ htmlQuoteClass)
  = Ok (quoted [dquote; squote] attr o).
Proof.
  intros Ha. unfold newRegExp, htmlQuoteClass.
  rewrite escapeRegExp_flat_map, (parseRegExp_plain _ _ Ha).
  cbn [app parseRegExp].
  change (Ascii.eqb "[" "[") with true. cbv iota.
  cbn [parseRegExp].
  change (Ascii.eqb squote "]") with false.
  change (mem squote (lit "\^-")) with false.
  change (Ascii.eqb dquote "]") with false.
  change (mem dquote (lit "\^-")) with false.
  change (Ascii.eqb "]" "]") with true. cbv iota.
  rewrite parseRegExp_escaped. reflexivity.
Qed.

(** ** What the patterns of the script match *)

Lemma matchPrefix_chars (a : str) (r : regex) (s m rest : str) :
  matchPrefix (map Chr a ++ r) s = Some (m, rest) <->
  exists s' m', s = a ++ s' /\ m = a ++ m' /\ matchPrefix r s' = Some (m', rest).
Proof.
  revert s m rest. induction a as [|c a IH]; intros s m rest.
  - simpl. split.
    + intros E. exists s, m. auto.
    + intros (s' & m' & -> & -> & E). exact E.
  - cbn [map app matchPrefix atomMatches]. destruct s as [|d s].
    + split; [discriminate | intros (s' & m' & Hs & _); discriminate].
    + destruct (Ascii.eqb c d) eqn:Hcd.
      * apply Ascii.eqb_eq in Hcd. subst d.
        destruct (matchPrefix (map Chr a ++ r) s) as [[m1 rest1]|] eqn:E.
        -- apply IH in E as (s' & m' & -> & -> & E). split.
           ++ intros [= <- <-]. exists s', m'. auto.
           ++ intros (s2 & m2 & Hs & -> & E2).
              injection Hs as Hs. apply app_inv_head in Hs. subst s2.
              rewrite E in E2. injection E2 as -> ->. reflexivity.
        -- split; [discriminate|].
           intros (s2 & m2 & Hs & -> & E2). injection Hs as ->.
           assert (matchPrefix (map Chr a ++ r) (a ++ s2) = Some (a ++ m2, rest))
             as E3 by (apply IH; eauto).
           congruence.
      * split; [discriminate|].
        intros (s2 & m2 & Hs & _). injection Hs as -> _.
        rewrite Ascii.eqb_refl in Hcd. discriminate.
Qed.

Lemma matchPrefix_class (qs : list ascii) (r : regex) (s m rest : str) :
  matchPrefix (Class qs :: r) s = Some (m, rest) <->
  exists q s' m',
    mem q qs = true /\ s = q :: s' /\ m = q :: m'
    /\ matchPrefix r s' = Some (m', rest).
Proof.
  cbn [matchPrefix atomMatches]. destruct s as [|d s].
  - split; [discriminate | intros (q & s' & m' & _ & Hs & _); discriminate].
  - destruct (mem d qs) eqn:Hd.
    + destruct (matchPrefix r s) as [[m1 rest1]|] eqn:E; split.
      * intros [= <- <-]. exists d, s, m1. auto.
      * intros (q & s' & m' & _ & [= -> ->] & -> & E2).
        rewrite E in E2. injection E2 as -> ->. reflexivity.
      * discriminate.
      * intros (q & s' & m' & _ & [= -> ->] & -> & E2). congruence.
    + split; [discriminate|].
      intros (q & s' & m' & Hq & [= -> ->] & _). congruence.
Qed.

(** The pattern matches exactly the path between two quotes, whichever two. *)
Lemma matchPrefix_quoted (qs : list ascii) (pre o s m rest : str) :
  matchPrefix (quoted qs pre o) s = Some (m, rest) <->
  exists q1 q2,
    mem q1 qs = true /\ mem q2 qs = true
    /\ s = pre ++ q1 :: o ++ q2 :: rest /\ m = pre ++ q1 :: o ++ [q2].
Proof.
  unfold quoted. rewrite matchPrefix_chars. split.
  - intros (s1 & m1 & -> & -> & E).
    apply matchPrefix_class in E as (q1 & s2 & m2 & Hq1 & -> & -> & E).
    apply matchPrefix_chars in E as (s3 & m3 & -> & -> & E).
    apply matchPrefix_class in E as (q2 & s4 & m4 & Hq2 & -> & -> & E).
    simpl in E. injection E as <- <-.
    exists q1, q2. auto.
  - intros (q1 & q2 & Hq1 & Hq2 & -> & ->).
    exists (q1 :: o ++ q2 :: rest), (q1 :: o ++ [q2]).
    split; [reflexivity|]. split; [reflexivity|].
    apply matchPrefix_class. exists q1, (o ++ q2 :: rest), (o ++ [q2]).
    repeat split; try assumption.
    apply matchPrefix_chars. exists (q2 :: rest), [q2].
    repeat split.
    apply matchPrefix_class. exists q2, rest, []. auto.
Qed.

(** A replacement text without a dollar sign stands for itself. *)
Lemma getSubstitution_literal (repl matched before after : str) :
  ~ In dollar repl -> getSubstitution repl matched before after = repl.
Proof.
  induction repl as [|c repl IH]; intros Hd; [reflexivity|].
  cbn [getSubstitution].
  destruct (Ascii.eqb c dollar) eqn:E.
  - apply Ascii.eqb_eq in E. subst c. exfalso. apply Hd. left. reflexivity.
  - f_equal. apply IH. intros Hin. apply Hd. right. exact Hin.
Qed.

(** ** Discovery *)

Lemma foundBelow_child (wanted : str -> path -> bool) (dir : path)
  (file : str) (p : path) :
  entered file = true ->
  foundBelow wanted (path_join dir file) p -> foundBelow wanted dir p.
Proof.
  intros Hf (rel & -> & Hne & Hdirs & Hw).
  exists (file :: rel). unfold path_join in *. rewrite <- app_assoc.
  split; [reflexivity|]. split; [discriminate|].
  destruct rel as [|r rel]; [congruence|]. split.
  - change (removelast (file :: r :: rel)) with (file :: removelast (r :: rel)).
    constructor; assumption.
  - rewrite <- app_assoc in Hw. exact Hw.
Qed.

Lemma foundBelow_file (wanted : str -> path -> bool) (dir : path)
  (file : str) :
  wanted file (path_join dir file) = true ->
  foundBelow wanted dir (path_join dir file).
Proof.
  intros Hw. exists [file]. split; [reflexivity|]. split; [discriminate|].
  split; [constructor | exact Hw].
Qed.

Lemma forEachEntry_sound (walkInto : path -> node -> list path -> result (list path))
  (wanted : str -> path -> bool) (dir : path) (files : list (str * node)) :
  Forall (fun e => walkSound wanted (fun d acc => walkInto d (snd e) acc)) files ->
  forall acc out,
    forEachEntry walkInto wanted dir files acc = Ok out ->
    exists new, out = acc ++ new /\ Forall (foundBelow wanted dir) new.
Proof.
  induction 1 as [|[file child] files Hc _ IH]; intros acc out;
    cbn [forEachEntry].
  - intros [= <-]. exists []. rewrite app_nil_r. auto.
  - destruct child as [c|l es|e]; cbn [statIsDirectory]; [| |discriminate].
    + destruct (wanted file (path_join dir file)) eqn:Hw.
      * intros E. apply IH in E as (new & -> & Hnew).
        exists (path_join dir file :: new). rewrite <- app_assoc. split; auto.
        constructor; [apply foundBelow_file; exact Hw | exact Hnew].
      * apply IH.
    + destruct (entered file) eqn:Hf; [|apply IH].
      destruct (walkInto (path_join dir file) (Dir l es) acc) as [acc'|e] eqn:E1;
        [|discriminate].
      intros E. apply Hc in E1 as (new1 & -> & Hnew1).
      apply IH in E as (new2 & -> & Hnew2).
      exists (new1 ++ new2). rewrite app_assoc. split; [reflexivity|].
      apply Forall_app. split; [|exact Hnew2].
      eapply Forall_impl; [|exact Hnew1].
      intros p. apply foundBelow_child. exact Hf.
Qed.

Lemma walk_sound (wanted : str -> path -> bool) (n : node) :
  walkSound wanted (fun d acc => walk wanted d n acc).
Proof.
  induction n as [c|l es IH|e] using node_induction;
    intros dir acc out; simpl; try discriminate.
  destruct l; [|discriminate].
  apply forEachEntry_sound. exact IH.
Qed.

(** A directory that is not entered is not looked into: what it holds has no
    part in the result. *)
Lemma forEachEntry_pruned (walkInto : path -> node -> list path -> result (list path))
  (wanted : str -> path -> bool) (dir : path) (file : str)
  (l : bool) (es : list (str * node)) (files : list (str * node))
  (acc : list path) :
  entered file = false ->
  forEachEntry walkInto wanted dir ((file, Dir l es) :: files) acc
  = forEachEntry walkInto wanted dir files acc.
Proof.
  intros Hf. cbn [forEachEntry statIsDirectory]. rewrite Hf. reflexivity.
Qed.

Lemma entered_spec (d : str) :
  entered d = true ->
  startsWith d (lit ".") = false /\ ~ In d IGNORE_DIRS.
Proof.
  unfold entered. rewrite andb_true_iff, !negb_true_iff. intros [H1 H2].
  split; [exact H1|]. intros Hin.
  assert (includes IGNORE_DIRS d = true) as H3; [|congruence].
  unfold includes. apply existsb_exists. exists d.
  split; [exact Hin | apply str_eqb_refl].
Qed.

Lemma render_last (sep : ascii) (p : path) :
  exists t, render sep p = t ++ last p [].
Proof.
  induction p as [|x p IH].
  - exists []. reflexivity.
  - destruct p as [|y p].
    + exists []. reflexivity.
    + destruct IH as [t Ht]. exists (x ++ sep :: t).
      change (render sep (x :: y :: p)) with (x ++ sep :: render sep (y :: p)).
      rewrite Ht, <- app_assoc. reflexivity.
Qed.

Lemma last_app_nonempty (a b : path) :
  b <> [] -> last (a ++ b) [] = last b [].
Proof.
  intros Hb. induction a as [|x a IH]; [reflexivity|].
  simpl. destruct (a ++ b) eqn:E; [|exact IH].
  apply app_eq_nil in E as [_ ->]. congruence.
Qed.

Lemma shouldIgnoreFile_false (h : host) (p : path) :
  shouldIgnoreFile h p = false ->
  forall ig, In ig IGNORE_FILE_PATHS ->
    normalizeSeparators (relativeText h p) <> ig.
Proof.
  unfold shouldIgnoreFile. intros Hno ig Hin Heq.
  assert (normalizeSeparators ig = ig) as Hig.
  { simpl in Hin. destruct Hin as [<-|[<-|[<-|[]]]]; reflexivity. }
  assert (existsb
            (fun ignorePath =>
               str_eqb (normalizeSeparators (relativeText h p))
                 (normalizeSeparators ignorePath))
            IGNORE_FILE_PATHS = true) as Hyes; [|congruence].
  apply existsb_exists. exists ig. split; [exact Hin|].
  rewrite Hig, Heq. apply str_eqb_refl.
Qed.

Lemma entered_false (d : str) :
  startsWith d (lit ".") = true \/ In d IGNORE_DIRS -> entered d = false.
Proof.
  intros H. destruct (entered d) eqn:E; [|reflexivity].
  apply entered_spec in E as [E1 E2]. destruct H; [congruence | contradiction].
Qed.

(** C4. A directory whose name starts with a dot or is in the
    ignored-directory set is not looked into.  Script discovery returns no
    path below such a directory, no file whose normalized path relative to
    the project root is an entry of the ignored-file set, and only paths
    that end in [.js]. *)
Theorem discovery_skips_ignored (h : host) (tree : node) (dir : path) :
  (forall walkInto dir' file l es files acc,
      startsWith file (lit ".") = true \/ In file IGNORE_DIRS ->
      forEachEntry walkInto (wantedJs h) dir' ((file, Dir l es) :: files) acc
      = forEachEntry walkInto (wantedJs h) dir' files acc)
  /\ forall files,
       findJsFiles h tree dir = Ok files ->
       forall p, In p files ->
         (exists rel,
             p = dir ++ rel /\ rel <> []
             /\ forall d, In d (removelast rel) ->
                  startsWith d (lit ".") = false /\ ~ In d IGNORE_DIRS)
         /\ (forall ig, In ig IGNORE_FILE_PATHS ->
               normalizeSeparators (relativeText h p) <> ig)
         /\ endsWith (render (sep h) p) (lit ".js") = true.
Proof.
  split.
  { intros walkInto dir' file l es files acc Hname.
    apply forEachEntry_pruned, entered_false, Hname. }
  unfold findJsFiles. intros files Hfind p Hp.
  destruct (lookup dir tree) as [n|]; [|discriminate].
  apply walk_sound in Hfind as (new & -> & Hnew). simpl in Hp.
  rewrite Forall_forall in Hnew.
  destruct (Hnew p Hp) as (rel & -> & Hne & Hdirs & Hw).
  unfold wantedJs in Hw. apply andb_true_iff in Hw as [Hjs Hig].
  apply negb_true_iff in Hig. split; [|split].
  - exists rel. split; [reflexivity|]. split; [exact Hne|].
    intros d Hd. apply entered_spec.
    rewrite Forall_forall in Hdirs. apply Hdirs. exact Hd.
  - apply shouldIgnoreFile_false. exact Hig.
  - apply endsWith_spec. apply endsWith_spec in Hjs as [u Hu].
    destruct (render_last (sep h) (dir ++ rel)) as [t Ht].
    rewrite last_app_nonempty in Ht by exact Hne.
    exists (t ++ u). rewrite Ht, Hu, app_assoc. reflexivity.
Qed.

Lemma discovery_skips_ignored_witness :
  findJsFiles posix disk (__dirname posix)
  = Ok [ [lit "srv"; lit "resource"; lit "main.js"];
         [lit "srv"; lit "resource"; lit "web"; lit "script.js"] ]
  /\ endsWith (render slash [lit "srv"; lit "resource"; lit "web"; lit "script.js"])
       (lit ".js") = true.
Proof.
  split; [reflexivity|].
  apply (proj2 (discovery_skips_ignored posix disk (__dirname posix)) _ eq_refl
           [lit "srv"; lit "resource"; lit "web"; lit "script.js"]).
  simpl. right. left. reflexivity.
Defined.

(** The walk lists the directory first, and throws what listing throws. *)
Lemma walk_readdirSync (wanted : str -> path -> bool) (dir : path) (n : node)
  (fileList : list path) :
  walk wanted dir n fileList
  = match readdirSync n with
    | Ok files => forEachEntry (walk wanted) wanted dir files fileList
    | Throw e => Throw e
    end.
Proof. destruct n as [c|[|] es|e]; reflexivity. Qed.

Lemma lookup_app (a b : path) (n : node) :
  lookup (a ++ b) n
  = match lookup a n with
    | Some m => lookup b m
    | None => None
    end.
Proof.
  revert n. induction a as [|x a IH]; intros n; [reflexivity|].
  cbn [app lookup]. destruct n as [c|l es|e]; try reflexivity.
  destruct (assoc x es); [apply IH | reflexivity].
Qed.

Lemma lookupError_app (a b : path) (n m : node) :
  lookup a n = Some m -> lookupError (a ++ b) n = lookupError b m.
Proof.
  revert n. induction a as [|x a IH]; intros n Hl.
  - injection Hl as ->. reflexivity.
  - cbn [app lookupError]. cbn [lookup] in Hl.
    destruct n as [c|l es|e]; try discriminate.
    destruct (assoc x es) as [ch|]; [apply IH; exact Hl | discriminate].
Qed.

Lemma firstFault_cons (file : str) (child : node) (es : list (str * node)) :
  firstFault (Dir true ((file, child) :: es))
  = match child with
    | File _ => firstFault (Dir true es)
    | Broken e => Some e
    | Dir _ _ =>
        if entered file then
          match firstFault child with
          | Some e => Some e
          | None => firstFault (Dir true es)
          end
        else firstFault (Dir true es)
    end.
Proof. destruct child; reflexivity. Qed.

(** A walk throws the error of the first call that fails in it, and
    returns when none does, whatever it collects. *)
Lemma walk_firstFault (wanted : str -> path -> bool) (n : node) :
  forall dir acc,
    match firstFault n with
    | Some e => walk wanted dir n acc = Throw e
    | None => exists out, walk wanted dir n acc = Ok out
    end.
Proof.
  induction n as [c|l es IH|e] using node_induction; intros dir acc;
    try reflexivity.
  destruct l; [|reflexivity]. cbn [walk]. revert acc.
  induction IH as [|[file child] es Hc _ IHes]; intros acc.
  - exists acc. reflexivity.
  - rewrite firstFault_cons. cbn [forEachEntry snd] in *.
    destruct child as [c|l' es'|e]; cbn [statIsDirectory].
    + destruct (wanted file (path_join dir file)); apply IHes.
    + destruct (entered file); [|apply IHes].
      specialize (Hc (path_join dir file) acc).
      destruct (firstFault (Dir l' es')) as [e|].
      * rewrite Hc. reflexivity.
      * destruct Hc as [out ->]. apply IHes.
    + reflexivity.
Qed.

(** The claim C5 as stated fails: a root that is missing and a root that
    is a file make discovery throw two different errors, [ENOENT] and
    [ENOTDIR], so no one error stands for both. *)
Lemma discovery_errors_differ :
  findJsFiles posix (Dir true []) [lit "srv"] = Throw ENOENT
  /\ findJsFiles posix (Dir true [(lit "srv", file "text")]) [lit "srv"]
     = Throw ENOTDIR
  /\ ~ (exists notFound,
          findJsFiles posix (Dir true []) [lit "srv"] = Throw notFound
          /\ findJsFiles posix (Dir true [(lit "srv", file "text")])
               [lit "srv"]
             = Throw notFound).
Proof.
  split; [reflexivity|]. split; [reflexivity|].
  intros (notFound & H1 & H2).
  change (Throw (A := list path) ENOENT = Throw notFound) in H1.
  change (Throw (A := list path) ENOTDIR = Throw notFound) in H2.
  congruence.
Qed.

(** C5, amended. Discovery has no error of its own and catches none.  On
    a root that is missing, itself or a directory above it, it throws
    [ENOENT]; on a root that is a regular file, or whose path runs through
    one, [ENOTDIR].  On a root that is there it throws the error of the
    first [readdirSync] or [statSync] that fails in the walk, as that call
    threw it, and returns when none fails.  [main] does not catch what
    discovery throws: the run ends with that error and nothing built. *)
Theorem discovery_failure_is_fatal (h : host) (tree : node) (dir : path) :
  (forall a x b l es,
      dir = a ++ x :: b ->
      lookup a tree = Some (Dir l es) -> assoc x es = None ->
      findJsFiles h tree dir = Throw ENOENT)
  /\ (forall a b c,
        dir = a ++ b -> lookup a tree = Some (File c) ->
        findJsFiles h tree dir = Throw ENOTDIR)
  /\ (forall n,
        lookup dir tree = Some n ->
        match firstFault n with
        | Some e => findJsFiles h tree dir = Throw e
        | None => exists files, findJsFiles h tree dir = Ok files
        end)
  /\ (forall w err,
        findJsFiles h (fs w) (__dirname h) = Throw err ->
        snd (main h w) = Throw err /\ fs (fst (main h w)) = fs w).
Proof.
  split; [|split; [|split]].
  - intros a x b l es -> Ha Hx. unfold findJsFiles.
    rewrite lookup_app, Ha, (lookupError_app a (x :: b) tree _ Ha).
    cbn [lookup lookupError]. rewrite Hx. reflexivity.
  - intros a b c -> Ha. unfold findJsFiles.
    rewrite lookup_app, Ha, (lookupError_app a b tree _ Ha).
    destruct b; reflexivity.
  - intros n Hn. unfold findJsFiles. rewrite Hn.
    apply walk_firstFault.
  - intros w err H. unfold main, bind, log. cbn [fs console].
    rewrite H. split; reflexivity.
Qed.

Lemma discovery_failure_is_fatal_witness :
  findJsFiles posix (Dir true []) (__dirname posix) = Throw ENOENT
  /\ findJsFiles posix (Dir true [(lit "srv", file "text")]) [lit "srv"]
     = Throw ENOTDIR
  /\ findJsFiles posix (Dir true [(lit "srv", file "text")])
       (__dirname posix)
     = Throw ENOTDIR
  /\ findJsFiles posix faultyDisk (__dirname posix) = Throw EACCES
  /\ (exists files, findJsFiles posix disk (__dirname posix) = Ok files)
  /\ snd (main posix (mkWorld faultyDisk [])) = Throw EACCES.
Proof.
  split; [|split; [|split; [|split; [|split]]]].
  - apply (proj1 (discovery_failure_is_fatal posix (Dir true [])
                    (__dirname posix))
             [] (lit "srv") [lit "resource"] true []);
      reflexivity.
  - apply (proj1 (proj2 (discovery_failure_is_fatal posix
                           (Dir true [(lit "srv", file "text")]) [lit "srv"]))
             [lit "srv"] [] (Some (lit "text")));
      reflexivity.
  - apply (proj1 (proj2 (discovery_failure_is_fatal posix
                           (Dir true [(lit "srv", file "text")])
                           (__dirname posix)))
             [lit "srv"] [lit "resource"] (Some (lit "text")));
      reflexivity.
  - apply (proj1 (proj2 (proj2 (discovery_failure_is_fatal posix faultyDisk
                                  (__dirname posix))))
             _ eq_refl).
  - apply (proj1 (proj2 (proj2 (discovery_failure_is_fatal posix disk
                                  (__dirname posix))))
             _ eq_refl).
  - apply (proj2 (proj2 (proj2 (discovery_failure_is_fatal posix faultyDisk
                                  (__dirname posix))))
             (mkWorld faultyDisk []) EACCES).
    reflexivity.
Defined.

(** ** The world monad *)

Lemma bind_Ok {A B} (c : M A) (k : A -> M B) (w w' : world) (b : B) :
  bind c k w = (w', Ok b) ->
  exists a w1, c w = (w1, Ok a) /\ k a w1 = (w', Ok b).
Proof.
  unfold bind. destruct (c w) as [w1 [a|e]]; [|discriminate].
  intros E. exists a, w1. auto.
Qed.

Lemma bind_step {A B} (c : M A) (k : A -> M B) (w w1 : world) (a : A) :
  c w = (w1, Ok a) -> bind c k w = k a w1.
Proof. unfold bind. intros ->. reflexivity. Qed.

(** ** Writing and reading back *)

Lemma assoc_update (x : str) (v : node) (es : list (str * node)) :
  assoc x es <> None -> assoc x (update x v es) = Some v.
Proof.
  induction es as [|[k w] es IH]; simpl; [congruence|].
  destruct (str_eqb k x) eqn:E; simpl; rewrite E; [reflexivity | exact IH].
Qed.

Lemma assoc_snoc (x : str) (v : node) (es : list (str * node)) :
  assoc x es = None -> assoc x (es ++ [(x, v)]) = Some v.
Proof.
  induction es as [|[k w] es IH]; simpl.
  - rewrite str_eqb_refl. reflexivity.
  - destruct (str_eqb k x); [discriminate | exact IH].
Qed.

Lemma writeFileSync_lookup (p : path) (content : str) (n n' : node) :
  writeFileSync p content n = Ok n' ->
  lookup p n' = Some (File (Some content)).
Proof.
  revert n n'. induction p as [|x p IH]; intros n n'; simpl.
  - destruct n as [[c|]|l es|e]; try discriminate. intros [= <-]. reflexivity.
  - destruct n as [c|l es|e]; [discriminate| |discriminate].
    destruct (assoc x es) as [ch|] eqn:Ex.
    + destruct (writeFileSync p content ch) as [ch'|e] eqn:Ew; [|discriminate].
      intros [= <-]. rewrite assoc_update by congruence.
      apply (IH _ _ Ew).
    + destruct p; [|discriminate]. intros [= <-].
      rewrite assoc_snoc by exact Ex. reflexivity.
Qed.

Lemma writeFileSync_read (p : path) (content : str) (n n' : node) :
  writeFileSync p content n = Ok n' -> readFileSync n' p = Ok content.
Proof.
  intros E. unfold readFileSync. rewrite (writeFileSync_lookup _ _ _ _ E).
  reflexivity.
Qed.

(** ** Paths as text *)

Lemma normalizeSeparators_app (a b : str) :
  normalizeSeparators (a ++ b) = normalizeSeparators a ++ normalizeSeparators b.
Proof. apply map_app. Qed.

Lemma normalizeSeparators_render (sep : ascii) (p : path) :
  sep = slash \/ sep = backslash ->
  normalizeSeparators (render sep p) = render slash (map normalizeSeparators p).
Proof.
  intros Hsep. induction p as [|x p IH]; [reflexivity|].
  destruct p as [|y p]; [reflexivity|].
  change (render sep (x :: y :: p)) with (x ++ sep :: render sep (y :: p)).
  rewrite normalizeSeparators_app.
  change (normalizeSeparators (sep :: render sep (y :: p)))
    with (toSlash sep :: normalizeSeparators (render sep (y :: p))).
  rewrite IH. replace (toSlash sep) with slash; [reflexivity|].
  destruct Hsep as [-> | ->]; reflexivity.
Qed.

Lemma normalizeSeparators_no_backslash (s : str) :
  ~ In backslash (normalizeSeparators s).
Proof.
  unfold normalizeSeparators. rewrite in_map_iff. intros [c [Hc _]].
  unfold toSlash in Hc. destruct (Ascii.eqb c backslash) eqn:E.
  - discriminate.
  - subst c. rewrite Ascii.eqb_refl in E. discriminate.
Qed.

(** ** The transform of one file *)

Lemma buildFileBody_Ok (h : host) (filePath : path) (w w' : world)
  (r : BuildResult) :
  buildFileBody h filePath w = (w', Ok r) ->
  exists code minified obfuscated,
    readFileSync (fs w) filePath = Ok code
    /\ minify h code = Ok minified
    /\ obfuscate h minified = Ok obfuscated
    /\ readFileSync (fs w') (outputPathOf filePath) = Ok obfuscated
    /\ r = {| originalPath := normalizeSeparators (relativeText h filePath);
              builtPath :=
                normalizeSeparators (relativeText h (outputPathOf filePath)) |}.
Proof.
  unfold buildFileBody. fold (outputPathOf filePath). intros E.
  apply bind_Ok in E as (code & w1 & Hread & E).
  unfold readFileSyncM in Hread. injection Hread as <- Hread.
  apply bind_Ok in E as ([] & w2 & Hlog & E).
  unfold log in Hlog. injection Hlog as <-.
  apply bind_Ok in E as (minified & w3 & Hmin & E).
  unfold liftR in Hmin. injection Hmin as <- Hmin.
  apply bind_Ok in E as (obfuscated & w4 & Hobf & E).
  unfold liftR in Hobf. injection Hobf as <- Hobf.
  apply bind_Ok in E as (present & w5 & Hex & E).
  unfold existsSyncM in Hex. injection Hex as <- _.
  apply bind_Ok in E as ([] & w6 & Hmk & E).
  apply bind_Ok in E as ([] & w7 & Hwr & E).
  apply bind_Ok in E as ([] & w8 & Hlog & E).
  unfold ret in E. injection E as <- <-.
  unfold log in Hlog. injection Hlog as <-. cbn [fs].
  unfold writeFileSyncM in Hwr.
  destruct (writeFileSync (outputPathOf filePath) obfuscated (fs w6))
    as [fs7|e] eqn:Ew; [|discriminate].
  injection Hwr as <-. cbn [fs].
  exists code, minified, obfuscated.
  repeat split; try assumption.
  apply (writeFileSync_read _ _ _ _ Ew).
Qed.

Lemma buildFile_Some (h : host) (filePath : path) (w w' : world)
  (r : BuildResult) :
  buildFile h filePath w = (w', Ok (Some r)) ->
  buildFileBody h filePath w = (w', Ok r).
Proof.
  unfold buildFile, tryCatch, bind, ret, log.
  destruct (buildFileBody h filePath w) as [w1 [b|e]].
  - intros [= -> ->]. reflexivity.
  - discriminate.
Qed.

Lemma path_dirname_under (root rel : path) :
  rel <> [] -> path_dirname (root ++ rel) = root ++ path_dirname rel.
Proof. intros Hne. apply removelast_app. exact Hne. Qed.

(** C1. A file that was transformed is written under its own name in a
    [build] directory next to it, and the [BuildResult] holds the source
    path and that output path relative to the project root, with forward
    slashes between the components. *)
Theorem built_beside_source (h : host) (rel : path) (w w' : world)
  (r : BuildResult) :
  sep h = slash \/ sep h = backslash ->
  rel <> [] ->
  buildFile h (__dirname h ++ rel) w = (w', Ok (Some r)) ->
  let built := path_dirname rel ++ [lit "build"; path_basename rel] in
  outputPathOf (__dirname h ++ rel) = __dirname h ++ built
  /\ (exists code, readFileSync (fs w') (__dirname h ++ built) = Ok code)
  /\ originalPath r = render slash (map normalizeSeparators rel)
  /\ builtPath r = render slash (map normalizeSeparators built)
  /\ ~ In backslash (originalPath r) /\ ~ In backslash (builtPath r).
Proof.
  intros Hsep Hne E built.
  assert (outputPathOf (__dirname h ++ rel) = __dirname h ++ built) as Hout.
  { unfold outputPathOf, path_join, path_basename, built.
    rewrite path_dirname_under by exact Hne.
    rewrite last_app_nonempty by exact Hne.
    rewrite <- !app_assoc. reflexivity. }
  apply buildFile_Some, buildFileBody_Ok in E
    as (code & minified & obfuscated & _ & _ & _ & Hwritten & ->).
  rewrite Hout in Hwritten. cbn [originalPath builtPath].
  unfold relativeText. rewrite Hout, !path_relative_under.
  rewrite !(fun p => normalizeSeparators_render _ p Hsep).
  split; [reflexivity|]. split; [exists obfuscated; exact Hwritten|].
  split; [reflexivity|]. split; [reflexivity|].
  rewrite <- !(fun p => normalizeSeparators_render _ p Hsep).
  split; apply normalizeSeparators_no_backslash.
Qed.

Lemma built_beside_source_witness :
  exists w' r,
    buildFile posix (__dirname posix ++ [lit "web"; lit "script.js"])
      (mkWorld disk []) = (w', Ok (Some r))
    /\ originalPath r = lit "web/script.js"
    /\ builtPath r = lit "web/build/script.js"
    /\ readFileSync (fs w')
         (__dirname posix ++ [lit "web"; lit "build"; lit "script.js"])
       = Ok (lit "obf:min:let b = 2;").
Proof.
  eexists. eexists. split; [reflexivity|].
  destruct (built_beside_source posix [lit "web"; lit "script.js"]
              (mkWorld disk []) _ _ (or_introl eq_refl)
              ltac:(discriminate) eq_refl) as (_ & _ & Ho & Hb & _).
  split; [exact Ho|]. split; [exact Hb|]. reflexivity.
Defined.

(** Each step of the transform that fails makes the body of the [try]
    throw: reading the source, the minifier, the obfuscator, creating the
    [build] directory, writing the output. *)
Lemma buildFileBody_throws (h : host) (filePath : path) (w : world)
  (e : error) :
  (readFileSync (fs w) filePath = Throw e
   \/ (exists code, readFileSync (fs w) filePath = Ok code
                    /\ minify h code = Throw e)
   \/ (exists code minified,
          readFileSync (fs w) filePath = Ok code
          /\ minify h code = Ok minified
          /\ obfuscate h minified = Throw e)
   \/ (exists code minified obfuscated,
          readFileSync (fs w) filePath = Ok code
          /\ minify h code = Ok minified
          /\ obfuscate h minified = Ok obfuscated
          /\ existsSync (fs w)
               (path_join (path_dirname filePath) (lit "build")) = false
          /\ mkdirSync (path_join (path_dirname filePath) (lit "build"))
               (fs w) = Throw e)
   \/ (exists code minified obfuscated,
          readFileSync (fs w) filePath = Ok code
          /\ minify h code = Ok minified
          /\ obfuscate h minified = Ok obfuscated
          /\ existsSync (fs w)
               (path_join (path_dirname filePath) (lit "build")) = true
          /\ writeFileSync (outputPathOf filePath) obfuscated (fs w)
             = Throw e)) ->
  exists w1, buildFileBody h filePath w = (w1, Throw e).
Proof.
  unfold buildFileBody, bind, readFileSyncM, liftR, log, existsSyncM,
    mkdirSyncM, writeFileSyncM.
  fold (outputPathOf filePath).
  intros [Hr | [(code & Hr & Hm) | [(code & minified & Hr & Hm & Ho)
    | [(code & minified & obfuscated & Hr & Hm & Ho & Hex & Hmk)
    | (code & minified & obfuscated & Hr & Hm & Ho & Hex & Hwr)]]]];
    rewrite Hr; cbn [fs console].
  - eexists. reflexivity.
  - rewrite Hm. eexists. reflexivity.
  - rewrite Hm, Ho. eexists. reflexivity.
  - rewrite Hm, Ho, Hex. cbn [negb fs console]. rewrite Hmk.
    eexists. reflexivity.
  - rewrite Hm, Ho, Hex. cbn [negb ret fs console]. rewrite Hwr.
    eexists. reflexivity.
Qed.

Lemma buildFile_total (h : host) (filePath : path) (w : world) :
  exists w' r, buildFile h filePath w = (w', Ok r).
Proof.
  unfold buildFile, tryCatch, bind, ret, log.
  destruct (buildFileBody h filePath w) as [w1 [b|e]]; eauto.
Qed.

Lemma buildAll_total (h : host) (jsFiles : list path) :
  forall builtFiles w,
    exists w' results, buildAll h jsFiles builtFiles w = (w', Ok results).
Proof.
  induction jsFiles as [|file jsFiles IH]; intros builtFiles w.
  - exists w, builtFiles. reflexivity.
  - cbn [buildAll].
    destruct (buildFile_total h file w) as (w1 & r & E).
    rewrite (bind_step _ _ _ _ _ E). destruct r; apply IH.
Qed.

(** C2. An error thrown while a file is transformed is caught there: the
    file gives no [BuildResult], the error is reported, and the loop of
    [main] goes on with the next file; neither [buildFile] nor the loop
    throws. *)
Theorem build_errors_are_caught (h : host) :
  (forall filePath w, exists w' r, buildFile h filePath w = (w', Ok r))
  /\ (forall filePath w w1 e,
        buildFileBody h filePath w = (w1, Throw e) ->
        buildFile h filePath w
        = (mkWorld (fs w1) (console w1 ++ [LogErrorBuilding filePath e]),
           Ok None))
  /\ (forall file jsFiles builtFiles w w1 e,
        buildFileBody h file w = (w1, Throw e) ->
        buildAll h (file :: jsFiles) builtFiles w
        = buildAll h jsFiles builtFiles
            (mkWorld (fs w1) (console w1 ++ [LogErrorBuilding file e])))
  /\ (forall jsFiles builtFiles w,
        exists w' results,
          buildAll h jsFiles builtFiles w = (w', Ok results)).
Proof.
  assert (forall filePath w w1 e,
             buildFileBody h filePath w = (w1, Throw e) ->
             buildFile h filePath w
             = (mkWorld (fs w1) (console w1 ++ [LogErrorBuilding filePath e]),
                Ok None)) as Hcaught.
  { intros filePath w w1 e E.
    unfold buildFile, tryCatch, bind, ret, log. rewrite E. reflexivity. }
  split; [apply buildFile_total|]. split; [exact Hcaught|].
  split; [|apply buildAll_total].
  intros file jsFiles builtFiles w w1 e E. cbn [buildAll].
  rewrite (bind_step _ _ _ _ _ (Hcaught _ _ _ _ E)). reflexivity.
Qed.

Lemma build_errors_are_caught_witness :
  let bad := [lit "srv"; lit "resource"; lit "bad.js"] in
  let good := [lit "srv"; lit "resource"; lit "good.js"] in
  let w := mkWorld flakyDisk [] in
  buildFileBody posix bad w = (w, Throw EACCES)
  /\ buildAll posix [bad; good] [] w
     = buildAll posix [good] []
         (mkWorld flakyDisk [LogErrorBuilding bad EACCES])
  /\ snd (buildAll posix [bad; good] [] w)
     = Ok [ {| originalPath := lit "good.js";
               builtPath := lit "build/good.js" |} ].
Proof.
  intros bad good w. split; [reflexivity|]. split; [|reflexivity].
  apply (proj1 (proj2 (proj2 (build_errors_are_caught posix)))
           bad [good] [] w w EACCES).
  reflexivity.
Defined.

(** ** The orchestrator *)

(** The tail of [main] once files were found and built. *)
Lemma main_after_build (h : host) (w w1 : world) (jsFiles : list path)
  (builtFiles : list BuildResult) :
  findJsFiles h (fs w) (__dirname h) = Ok jsFiles ->
  jsFiles <> [] ->
  buildAll h jsFiles [] (afterScan w (List.length jsFiles))
  = (w1, Ok builtFiles) ->
  builtFiles <> [] ->
  main h w
  = bind (updateManifest h builtFiles)
      (fun _ => updateHtmlFiles h builtFiles)
      (mkWorld (fs w1) (console w1 ++ [LogBuildComplete])).
Proof.
  intros Hfind Hjs Hbuild Hbuilt. unfold main.
  unfold bind at 1 2 3 4. unfold log at 1 2 3. cbn [fs console].
  rewrite Hfind.
  destruct jsFiles as [|f jsFiles]; [congruence|].
  cbn [List.length Nat.eqb].
  unfold bind at 1. unfold log at 1. cbn [fs console].
  unfold bind at 1. unfold afterScan in Hbuild. cbn [List.length] in Hbuild.
  rewrite Hbuild.
  unfold bind at 1. unfold log at 1.
  destruct builtFiles as [|b builtFiles]; [congruence|].
  reflexivity.
Qed.

(** C8. Without a manifest at its path the rewriter writes nothing and
    reports a warning; it does not throw, and [main] goes on to the HTML
    files. *)
Theorem missing_manifest_is_skipped (h : host) (builtFiles : list BuildResult)
  (w : world) :
  existsSync (fs w) (path_join (__dirname h) MANIFEST_FILE) = false ->
  updateManifest h builtFiles w
  = (mkWorld (fs w) (console w ++ [LogManifestNotFound]), Ok tt)
  /\ forall w0 jsFiles,
       findJsFiles h (fs w0) (__dirname h) = Ok jsFiles ->
       jsFiles <> [] ->
       builtFiles <> [] ->
       buildAll h jsFiles [] (afterScan w0 (List.length jsFiles))
       = (w, Ok builtFiles) ->
       main h w0
       = updateHtmlFiles h builtFiles
           (mkWorld (fs w)
              ((console w ++ [LogBuildComplete]) ++ [LogManifestNotFound])).
Proof.
  intros Habsent.
  assert (forall c,
             updateManifest h builtFiles (mkWorld (fs w) c)
             = (mkWorld (fs w) (c ++ [LogManifestNotFound]), Ok tt)) as Hskip.
  { intros c. unfold updateManifest, bind, existsSyncM. cbn [fs].
    rewrite Habsent. reflexivity. }
  split.
  - destruct w as [f c]. apply Hskip.
  - intros w0 jsFiles Hfind Hjs Hbuilt Hbuild.
    rewrite (main_after_build h w0 w jsFiles builtFiles Hfind Hjs Hbuild Hbuilt).
    unfold bind at 1. rewrite Hskip. reflexivity.
Qed.

Lemma missing_manifest_is_skipped_witness :
  updateManifest posix
    [ {| originalPath := lit "good.js"; builtPath := lit "build/good.js" |} ]
    (mkWorld flakyDisk [])
  = (mkWorld flakyDisk [LogManifestNotFound], Ok tt).
Proof.
  apply (proj1 (missing_manifest_is_skipped posix
                  [ {| originalPath := lit "good.js";
                       builtPath := lit "build/good.js" |} ]
                  (mkWorld flakyDisk []) eq_refl)).
Defined.

(** ** The HTML rewriter *)

Lemma substitute_src (original built : str) (st : htmlState) (w : world) :
  substitute (lit "src=") original built st w
  = if test (quoted htmlQuotes (lit "src=") original) (fst st)
    then (mkWorld (fs w) (console w ++ [LogReplaced original built]),
          Ok (replaceAll (quoted htmlQuotes (lit "src=") original)
                (lit "src=" ++ dquote :: built ++ [dquote]) (fst st),
              true))
    else (w, Ok st).
Proof.
  unfold substitute, bind, liftR.
  rewrite (newRegExp_html (lit "src=") original eq_refl).
  fold htmlQuotes.
  destruct (test (quoted htmlQuotes (lit "src=") original) (fst st));
    reflexivity.
Qed.

Lemma substitute_href (original built : str) (st : htmlState) (w : world) :
  substitute (lit "href=") original built st w
  = if test (quoted htmlQuotes (lit "href=") original) (fst st)
    then (mkWorld (fs w) (console w ++ [LogReplaced original built]),
          Ok (replaceAll (quoted htmlQuotes (lit "href=") original)
                (lit "href=" ++ dquote :: built ++ [dquote]) (fst st),
              true))
    else (w, Ok st).
Proof.
  unfold substitute, bind, liftR.
  rewrite (newRegExp_html (lit "href=") original eq_refl).
  fold htmlQuotes.
  destruct (test (quoted htmlQuotes (lit "href=") original) (fst st));
    reflexivity.
Qed.

Lemma tryPath_quiet (st : htmlState) (original built : str) (w : world) :
  attributeMatches (fst st) original = false ->
  tryPath st (original, built) w = (w, Ok st).
Proof.
  unfold attributeMatches. intros H. apply orb_false_iff in H as [Hs Hh].
  unfold tryPath, bind. rewrite substitute_src, Hs, substitute_href, Hh.
  reflexivity.
Qed.

Lemma rewriteForMapping_quiet (h : host) (htmlDir : path) (st : htmlState)
  (b : BuildResult) (w : world) :
  existsb (fun p => attributeMatches (fst st) (fst p)) (pathsToTry h htmlDir b)
  = false ->
  rewriteForMapping h htmlDir st b w = (w, Ok st).
Proof.
  unfold rewriteForMapping. fold (pathsToTry h htmlDir b).
  generalize (pathsToTry h htmlDir b) as ps.
  induction ps as [|[o bu] ps IH]; intros H; [reflexivity|].
  cbn [existsb fst] in H. apply orb_false_iff in H as [H1 H2].
  cbn [foldM]. unfold bind. rewrite (tryPath_quiet _ _ _ _ H1).
  apply IH. exact H2.
Qed.

Lemma htmlPass_quiet (h : host) (htmlDir : path)
  (builtFiles : list BuildResult) (st : htmlState) (w : world) :
  matchesAny h htmlDir builtFiles (fst st) = false ->
  foldM (rewriteForMapping h htmlDir) builtFiles st w = (w, Ok st).
Proof.
  unfold matchesAny.
  induction builtFiles as [|b builtFiles IH]; intros H; [reflexivity|].
  cbn [existsb] in H. apply orb_false_iff in H as [H1 H2].
  cbn [foldM]. unfold bind. rewrite (rewriteForMapping_quiet _ _ _ _ _ H1).
  apply IH. exact H2.
Qed.

Lemma progress_refl (w : world) (st : htmlState) : progress w st w st.
Proof.
  split; [reflexivity|]. exists []. rewrite app_nil_r.
  repeat split; auto.
Qed.

Lemma progress_trans (w w1 w2 : world) (st st1 st2 : htmlState) :
  progress w st w1 st1 -> progress w1 st1 w2 st2 -> progress w st w2 st2.
Proof.
  intros (Hfs1 & evs1 & Hc1 & Hr1 & Ht1 & Hf1)
         (Hfs2 & evs2 & Hc2 & Hr2 & Ht2 & Hf2).
  split; [congruence|]. exists (evs1 ++ evs2).
  split; [rewrite Hc2, Hc1, app_assoc; reflexivity|].
  split; [apply Forall_app; auto|]. split.
  - intros H2. destruct (Ht2 H2) as [H1|Hne].
    + destruct (Ht1 H1) as [H0|Hne]; [left; exact H0|].
      right. destruct evs1; [congruence | discriminate].
    + right. destruct evs1; [exact Hne | discriminate].
  - intros H2. destruct (Hf2 H2) as [-> ->].
    destruct (Hf1 H2) as [-> ->]. auto.
Qed.

Lemma progress_replaced (w : world) (st : htmlState) (o b t : str) :
  progress w st (mkWorld (fs w) (console w ++ [LogReplaced o b])) (t, true).
Proof.
  split; [reflexivity|]. exists [LogReplaced o b].
  split; [reflexivity|]. split.
  - constructor; [exists o, b; reflexivity | constructor].
  - split; [intros _; right; discriminate | discriminate].
Qed.

Lemma tryPath_progress (st st1 : htmlState) (p : str * str) (w w1 : world) :
  tryPath st p w = (w1, Ok st1) -> progress w st w1 st1.
Proof.
  destruct p as [o b]. unfold tryPath. intros E.
  apply bind_Ok in E as (st' & w' & E1 & E2).
  apply progress_trans with (w1 := w') (st1 := st').
  - rewrite substitute_src in E1.
    destruct (test (quoted htmlQuotes (lit "src=") o) (fst st));
      injection E1 as <- <-; [apply progress_replaced | apply progress_refl].
  - rewrite substitute_href in E2.
    destruct (test (quoted htmlQuotes (lit "href=") o) (fst st'));
      injection E2 as <- <-; [apply progress_replaced | apply progress_refl].
Qed.

Lemma foldM_progress {A} (body : htmlState -> A -> M htmlState) :
  (forall st x w w1 st1, body st x w = (w1, Ok st1) -> progress w st w1 st1) ->
  forall xs st w w1 st1,
    foldM body xs st w = (w1, Ok st1) -> progress w st w1 st1.
Proof.
  intros Hbody. induction xs as [|x xs IH]; intros st w w1 st1; cbn [foldM].
  - intros [= <- <-]. apply progress_refl.
  - intros E. apply bind_Ok in E as (st' & w' & E1 & E2).
    eapply progress_trans; [apply (Hbody _ _ _ _ _ E1) | apply (IH _ _ _ _ E2)].
Qed.

Lemma htmlPass_progress (h : host) (htmlDir : path)
  (builtFiles : list BuildResult) (st st1 : htmlState) (w w1 : world) :
  foldM (rewriteForMapping h htmlDir) builtFiles st w = (w1, Ok st1) ->
  progress w st w1 st1.
Proof.
  apply foldM_progress. intros s b w0 w2 s1. unfold rewriteForMapping.
  apply foldM_progress. intros s' p w3 w4 s2. apply tryPath_progress.
Qed.

(** C9. An HTML file is written back only when a substitution was made in
    it; when no attribute matched, nothing is written and the "no changes"
    notice is printed. *)
Theorem html_written_only_when_changed (h : host)
  (builtFiles : list BuildResult) (htmlPath : path) (w : world) :
  (forall htmlContent,
      readFileSync (fs w) htmlPath = Ok htmlContent ->
      matchesAny h (path_dirname htmlPath) builtFiles htmlContent = false ->
      updateHtmlFile h builtFiles htmlPath w
      = (mkWorld (fs w)
           (console w ++ [LogHtmlNoChanges (relativeText h htmlPath)]),
         Ok tt))
  /\ (forall w',
        updateHtmlFile h builtFiles htmlPath w = (w', Ok tt) ->
        (fs w' = fs w
         /\ console w'
            = console w ++ [LogHtmlNoChanges (relativeText h htmlPath)])
        \/ (exists evs htmlContent',
               evs <> [] /\ Forall isReplaced evs
               /\ writeFileSync htmlPath htmlContent' (fs w) = Ok (fs w')
               /\ console w'
                  = (console w ++ evs)
                      ++ [LogHtmlUpdated (relativeText h htmlPath)])).
Proof.
  split.
  - intros htmlContent Hread Hquiet.
    unfold updateHtmlFile, bind, readFileSyncM. rewrite Hread.
    rewrite (htmlPass_quiet h _ builtFiles (htmlContent, false) w Hquiet).
    reflexivity.
  - intros w' E. unfold updateHtmlFile in E.
    apply bind_Ok in E as (htmlContent & w0 & Hread & E).
    unfold readFileSyncM in Hread. injection Hread as <- Hread.
    apply bind_Ok in E as ([t updated] & w1 & Hpass & E).
    apply htmlPass_progress in Hpass
      as (Hfs & evs & Hcon & Hrep & Htrue & Hfalse).
    cbn [fst snd] in *. destruct updated.
    + right. apply bind_Ok in E as ([] & w2 & Hwrite & Hlog).
      unfold writeFileSyncM in Hwrite. rewrite Hfs in Hwrite.
      destruct (writeFileSync htmlPath t (fs w)) as [fs2|e] eqn:Ew;
        [|discriminate].
      injection Hwrite as <-. unfold log in Hlog. injection Hlog as <-.
      cbn [fs console]. exists evs, t.
      destruct (Htrue eq_refl) as [Habs|Hne]; [discriminate|].
      rewrite Hcon. auto.
    + left. unfold log in E. injection E as <-. cbn [fs console].
      destruct (Hfalse eq_refl) as [-> _].
      rewrite Hcon, app_nil_r. auto.
Qed.

Lemma html_written_only_when_changed_witness :
  let page := [lit "srv"; lit "resource"; lit "index.html"] in
  let mapping := {| originalPath := lit "main.js";
                    builtPath := lit "build/main.js" |} in
  updateHtmlFile posix [mapping] page (mkWorld disk [])
  = (mkWorld disk [LogHtmlNoChanges (lit "index.html")], Ok tt).
Proof.
  intros page mapping.
  apply (proj1 (html_written_only_when_changed posix [mapping] page
                  (mkWorld disk []))
           (lit "<script src='web/script.js'></script>")).
  - reflexivity.
  - reflexivity.
Defined.

(** The claim C7 as stated fails: with the mappings the script makes of
    [collidingDisk], the second pass changes the text once more, because the
    first pass wrote a path that another mapping rewrites. *)
Lemma html_rewriter_not_idempotent :
  (exists w,
      findJsFiles posix collidingDisk (__dirname posix)
      = Ok [ __dirname posix ++ [lit "build\a.js"];
             __dirname posix ++ [lit "a.js"] ]
      /\ buildAll posix
           [ __dirname posix ++ [lit "build\a.js"];
             __dirname posix ++ [lit "a.js"] ] []
           (mkWorld collidingDisk [])
         = (w, Ok collidingMappings))
  /\ snd (htmlPass posix (__dirname posix) collidingMappings
            (scriptTag "a.js") (mkWorld collidingDisk []))
     = Ok (scriptTag "build/a.js", true)
  /\ snd (htmlPass posix (__dirname posix) collidingMappings
            (scriptTag "build/a.js") (mkWorld collidingDisk []))
     = Ok (scriptTag "build/build/a.js", true)
  /\ scriptTag "build/build/a.js" <> scriptTag "build/a.js".
Proof.
  split; [eexists; split; reflexivity|].
  split; [reflexivity|]. split; [reflexivity|]. discriminate.
Qed.

(** ** The manifest rewriter *)

(** With a replacement text that has no dollar sign, the text already passed
    plays no part. *)
Lemma scan_literal_before (r : regex) (repl : str) :
  ~ In dollar repl ->
  forall fuel b1 b2 s, scan fuel r repl b1 s = scan fuel r repl b2 s.
Proof.
  intros Hd. induction fuel as [|fuel IH]; intros b1 b2 s; [reflexivity|].
  rewrite !scan_S. destruct (matchPrefix r s) as [[m rest]|].
  - cbv zeta. rewrite !(getSubstitution_literal repl _ _ _ Hd).
    destruct m as [|c m].
    + destruct s as [|d s]; [reflexivity|].
      f_equal. f_equal. apply IH.
    + f_equal. apply IH.
  - destruct s as [|d s]; [reflexivity|]. f_equal. apply IH.
Qed.

Lemma rewriteManifest_replaceAll (t : str) (b : BuildResult) :
  rewriteManifest t b
  = Ok (replaceAll (manifestPattern (originalPath b))
          (singleQuoted (builtPath b)) t).
Proof.
  unfold rewriteManifest. rewrite newRegExp_manifest. reflexivity.
Qed.

Lemma singleQuoted_literal (built : str) :
  ~ In dollar built -> ~ In dollar (singleQuoted built).
Proof.
  intros Hb [H|H]; [discriminate|].
  apply in_app_or in H as [H|[H|[]]]; [auto | discriminate].
Qed.

Lemma replaceAll_manifest_hit (o b : str) (q1 q2 : ascii) (rest : str) :
  ~ In dollar b -> In q1 quotes -> In q2 quotes ->
  replaceAll (manifestPattern o) (singleQuoted b) (q1 :: o ++ q2 :: rest)
  = singleQuoted b ++ replaceAll (manifestPattern o) (singleQuoted b) rest.
Proof.
  intros Hb H1 H2. rewrite !replaceAll_scanFrom.
  rewrite (scanFrom_hit _ _ _ _ (q1 :: o ++ [q2]) rest).
  - rewrite (getSubstitution_literal _ _ _ _ (singleQuoted_literal _ Hb)).
    f_equal. unfold scanFrom.
    apply scan_literal_before, singleQuoted_literal, Hb.
  - apply matchPrefix_quoted. exists q1, q2.
    repeat split; try (apply mem_In; assumption).
  - discriminate.
Qed.

Lemma replaceAll_manifest_miss (o b : str) (c : ascii) (s : str) :
  ~ In dollar b ->
  matchPrefix (manifestPattern o) (c :: s) = None ->
  replaceAll (manifestPattern o) (singleQuoted b) (c :: s)
  = c :: replaceAll (manifestPattern o) (singleQuoted b) s.
Proof.
  intros Hb E. rewrite !replaceAll_scanFrom, (scanFrom_miss _ _ _ _ _ E).
  f_equal. unfold scanFrom.
  apply scan_literal_before, singleQuoted_literal, Hb.
Qed.

(** ** The manifest rewrite in the specification's words *)

Lemma quotedAt_spec (o t : str) :
  quotedAt o t = true <->
  exists q1 q2 rest,
    In q1 quotes /\ In q2 quotes /\ t = q1 :: o ++ q2 :: rest.
Proof.
  unfold quotedAt. destruct t as [|q1 t].
  - split; [discriminate | intros (q1 & q2 & rest & _ & _ & H); discriminate].
  - rewrite !andb_true_iff, mem_In, startsWith_spec. split.
    + intros [[H1 [u ->]] H2]. rewrite skipn_app, skipn_all in H2.
      rewrite Nat.sub_diag in H2. cbn [skipn app] in H2.
      destruct u as [|q2 rest]; [discriminate|].
      apply mem_In in H2. exists q1, q2, rest. auto.
    + intros (q & q2 & rest & H1 & H2 & [= -> ->]).
      split; [split; [exact H1 | exists (q2 :: rest); reflexivity]|].
      rewrite skipn_app, skipn_all, Nat.sub_diag. cbn [skipn app].
      apply mem_In. exact H2.
Qed.

Lemma quotedAt_matchPrefix (o t : str) :
  quotedAt o t = false -> matchPrefix (manifestPattern o) t = None.
Proof.
  intros Hq. destruct (matchPrefix (manifestPattern o) t) as [[m rest]|] eqn:E;
    [|reflexivity].
  apply matchPrefix_quoted in E as (q1 & q2 & H1 & H2 & -> & _).
  assert (quotedAt o ([] ++ q1 :: o ++ q2 :: rest) = true) as Hyes; [|congruence].
  apply quotedAt_spec. exists q1, q2, rest.
  repeat split; apply mem_In; assumption.
Qed.

Lemma replaceQuotedFrom_skip (o b a rest : str) :
  replaceQuotedFrom (List.length a) o b (a ++ rest)
  = replaceQuotedFrom 0 o b rest.
Proof.
  induction a as [|c a IH]; [reflexivity|]. exact IH.
Qed.

(** On built paths without a dollar sign, the replacement of the script is
    the rewrite in the specification's words. *)
Lemma replaceAll_replaceQuoted (o b : str) :
  ~ In dollar b ->
  forall t, replaceAll (manifestPattern o) (singleQuoted b) t
            = replaceQuoted o b t.
Proof.
  intros Hb t. unfold replaceQuoted.
  remember (List.length t) as n eqn:Hn.
  assert (List.length t <= n) as Hle by lia. clear Hn.
  revert t Hle. induction n as [|n IH]; intros t Hle.
  - destruct t; [reflexivity | simpl in Hle; lia].
  - destruct t as [|c t]; [reflexivity|].
    cbn [replaceQuotedFrom]. destruct (quotedAt o (c :: t)) eqn:Hq.
    + apply quotedAt_spec in Hq as (q1 & q2 & rest & H1 & H2 & [= -> ->]).
      rewrite (replaceAll_manifest_hit _ _ _ _ _ Hb H1 H2).
      unfold singleQuoted. cbn [app]. rewrite <- app_assoc. cbn [app].
      f_equal. f_equal. f_equal.
      rewrite IH.
      * change (o ++ q2 :: rest) with (o ++ [q2] ++ rest).
        rewrite app_assoc.
        replace (S (List.length o)) with (List.length (o ++ [q2]))
          by (rewrite length_app; simpl; lia).
        symmetry. apply replaceQuotedFrom_skip.
      * simpl in Hle. rewrite length_app in Hle. simpl in Hle. lia.
    + rewrite (replaceAll_manifest_miss _ _ _ _ Hb (quotedAt_matchPrefix _ _ Hq)).
      f_equal. apply IH. simpl in Hle. lia.
Qed.

Lemma rewriteManifestAll_fold (builtFiles : list BuildResult) (t : str) :
  Forall (fun b => ~ In dollar (builtPath b)) builtFiles ->
  rewriteManifestAll builtFiles t
  = Ok (fold_left
          (fun t b => replaceQuoted (originalPath b) (builtPath b) t)
          builtFiles t).
Proof.
  intros Hb. revert t. induction Hb as [|b builtFiles Hd _ IH]; intros t.
  - reflexivity.
  - cbn [rewriteManifestAll fold_left].
    rewrite rewriteManifest_replaceAll, (replaceAll_replaceQuoted _ _ Hd).
    apply IH.
Qed.

(** The claim C3 as stated fails.  Two quoted occurrences of a path that
    share a quote character are not both replaced: the scan resumes after
    the first.  And a built path is read as a replacement pattern, so that
    [$&] in it brings the matched text back. *)
Lemma manifest_occurrence_not_replaced :
  (quotedAt (lit "main.js") (lit "'main.js'main.js'") = true
   /\ quotedAt (lit "main.js") (skipn 8 (lit "'main.js'main.js'")) = true
   /\ rewriteManifestAll [mainMapping] (lit "'main.js'main.js'")
      = Ok (lit "'build/main.js'main.js'")
   /\ quotedAt (lit "main.js") (skipn 14 (lit "'build/main.js'main.js'"))
      = true)
  /\ (snd (buildFile posix (__dirname posix ++ [lit "a$&.js"])
             (mkWorld dollarDisk []))
      = Ok (Some dollarMapping)
      /\ rewriteManifestAll [dollarMapping] (lit "'a$&.js'")
         = Ok (lit "'build/a'a$&.js'.js'")).
Proof. repeat split. Qed.

(** C3, amended. The mappings are applied in the order in which they were
    produced, each to the text that the one before left.  The pattern of a
    mapping is its original path, character by character, between two quote
    characters.  For a built path without a dollar sign, the text is read
    from left to right: where the original path stands between two quote
    characters the built path between single quotes takes its place and
    reading resumes after the closing quote; every other character is
    kept. *)
Theorem manifest_rewritten_in_order (builtFiles : list BuildResult) (t : str) :
  (forall b,
      In b builtFiles ->
      newRegExp (quoteClass ++ escapeRegExp (originalPath b) ++ quoteClass)
      = Ok (Class [squote; dquote] :: map Chr (originalPath b)
              ++ [Class [squote; dquote]]))
  /\ (Forall (fun b => ~ In dollar (builtPath b)) builtFiles ->
      rewriteManifestAll builtFiles t
      = Ok (fold_left
              (fun t b => replaceQuoted (originalPath b) (builtPath b) t)
              builtFiles t)).
Proof.
  split.
  - intros b _. apply newRegExp_manifest.
  - apply rewriteManifestAll_fold.
Qed.

Lemma manifest_rewritten_in_order_witness :
  rewriteManifestAll
    [ mainMapping;
      {| originalPath := lit "web/script.js";
         builtPath := lit "web/build/script.js" |} ]
    (lit "client_scripts { 'main.js', 'main-js', 'web/script.js' }")
  = Ok (lit "client_scripts { 'build/main.js', 'main-js', 'web/build/script.js' }").
Proof.
  rewrite (proj2 (manifest_rewritten_in_order _ _)).
  - reflexivity.
  - repeat constructor; apply not_In_mem; reflexivity.
Defined.

(** ** What remains of the original paths in the manifest *)

Lemma test_true (r : regex) (t : str) :
  test r t = true <->
  exists pre s m rest, t = pre ++ s /\ matchPrefix r s = Some (m, rest).
Proof.
  induction t as [|c t IH]; cbn [test].
  - destruct (matchPrefix r []) as [[m rest]|] eqn:E.
    + split; [intros _; exists [], [], m, rest; auto | reflexivity].
    + split; [discriminate|].
      intros (pre & s & m & rest & Ht & Hm). symmetry in Ht.
      apply app_eq_nil in Ht as [-> ->]. congruence.
  - destruct (matchPrefix r (c :: t)) as [[m rest]|] eqn:E.
    + split; [intros _; exists [], (c :: t), m, rest; auto | reflexivity].
    + rewrite IH. split.
      * intros (pre & s & m & rest & -> & Hm).
        exists (c :: pre), s, m, rest. auto.
      * intros (pre & s & m & rest & Ht & Hm). destruct pre as [|d pre].
        -- simpl in Ht. subst s. congruence.
        -- injection Ht as -> ->. exists pre, s, m, rest. auto.
Qed.

Lemma test_occurs (o t : str) :
  test (manifestPattern o) t = true <-> occurs o t.
Proof.
  rewrite test_true. unfold occurs. split.
  - intros (pre & s & m & rest & -> & Hm).
    apply matchPrefix_quoted in Hm as (q1 & q2 & H1 & H2 & -> & _).
    apply mem_In in H1, H2. exists pre, q1, q2, rest. auto.
  - intros (pre & q1 & q2 & post & H1 & H2 & ->).
    exists pre, (q1 :: o ++ q2 :: post), (q1 :: o ++ [q2]), post.
    split; [reflexivity|]. apply matchPrefix_quoted.
    exists q1, q2. repeat split; apply mem_In; assumption.
Qed.

Lemma replaceQuoted_hit (o b : str) (q1 q2 : ascii) (rest : str) :
  In q1 quotes -> In q2 quotes ->
  replaceQuoted o b (q1 :: o ++ q2 :: rest)
  = squote :: b ++ squote :: replaceQuoted o b rest.
Proof.
  intros H1 H2. unfold replaceQuoted. cbn [replaceQuotedFrom].
  replace (quotedAt o (q1 :: o ++ q2 :: rest)) with true.
  - f_equal. f_equal. f_equal.
    change (o ++ q2 :: rest) with (o ++ [q2] ++ rest). rewrite app_assoc.
    replace (S (List.length o)) with (List.length (o ++ [q2]))
      by (rewrite length_app; simpl; lia).
    apply replaceQuotedFrom_skip.
  - symmetry. apply quotedAt_spec. exists q1, q2, rest. auto.
Qed.

Lemma replaceQuoted_miss (o b : str) (c : ascii) (s : str) :
  quotedAt o (c :: s) = false ->
  replaceQuoted o b (c :: s) = c :: replaceQuoted o b s.
Proof.
  intros Hq. unfold replaceQuoted. cbn [replaceQuotedFrom]. rewrite Hq.
  reflexivity.
Qed.

(** Two texts that agree up to their first quote character. *)
Lemma first_quote_unique (a a' : str) (q q' : ascii) (x x' : str) :
  quoteFree a -> quoteFree a' -> In q quotes -> In q' quotes ->
  a ++ q :: x = a' ++ q' :: x' -> a = a' /\ q = q' /\ x = x'.
Proof.
  intros Ha Ha' Hq Hq'. revert a' Ha'.
  induction a as [|c a IH]; intros a' Ha' E.
  - destruct a' as [|c' a'].
    + injection E as -> ->. auto.
    + injection E as -> _. exfalso. apply (Ha' c' Hq). left. reflexivity.
  - destruct a' as [|c' a'].
    + injection E as -> _. exfalso. apply (Ha q' Hq'). left. reflexivity.
    + injection E as -> E. destruct (IH (fun d Hd Hin => Ha d Hd (or_intror Hin))
                                        a' (fun d Hd Hin => Ha' d Hd (or_intror Hin)) E)
        as (-> & -> & ->).
      auto.
Qed.

(** What the rewritten text starts with up to its first quote character,
    the text started with. *)
Lemma replaceQuoted_starts (o b a : str) (p : ascii) (post : str) :
  quoteFree a -> In p quotes ->
  forall s,
    replaceQuoted o b s = a ++ p :: post ->
    exists q rest, In q quotes /\ s = a ++ q :: rest.
Proof.
  intros Ha Hp. induction a as [|x a IH]; intros s E.
  - destruct s as [|c s]; [discriminate|].
    destruct (quotedAt o (c :: s)) eqn:Hq.
    + apply quotedAt_spec in Hq as (q1 & q2 & rest & H1 & _ & [= -> ->]).
      exists q1, (o ++ q2 :: rest). auto.
    + rewrite (replaceQuoted_miss _ _ _ _ Hq) in E. injection E as -> _.
      exists p, s. auto.
  - destruct s as [|c s]; [discriminate|].
    destruct (quotedAt o (c :: s)) eqn:Hq.
    + apply quotedAt_spec in Hq as (q1 & q2 & rest & H1 & H2 & [= -> ->]).
      rewrite (replaceQuoted_hit _ _ _ _ _ H1 H2) in E. injection E as <- _.
      exfalso. apply (Ha squote); left; reflexivity.
    + rewrite (replaceQuoted_miss _ _ _ _ Hq) in E. injection E as -> E.
      destruct (IH (fun d Hd Hin => Ha d Hd (or_intror Hin)) s E)
        as (q & rest & Hq' & ->).
      exists q, rest. auto.
Qed.

(** Where a quote character can stand in a text that starts with a built
    path and its closing quote. *)
Lemma after_built_path (b : str) (q p : ascii) (y pre z : str) :
  quoteFree b -> In p quotes ->
  b ++ q :: y = pre ++ p :: z ->
  (pre = b /\ y = z) \/ (exists pre', pre = b ++ q :: pre' /\ y = pre' ++ p :: z).
Proof.
  intros Hb Hp. revert pre. induction b as [|x b IH]; intros pre E.
  - destruct pre as [|d pre].
    + injection E as _ ->. left. auto.
    + injection E as <- ->. right. exists pre. auto.
  - destruct pre as [|d pre].
    + injection E as -> _. exfalso. apply (Hb p Hp). left. reflexivity.
    + injection E as <- E.
      destruct (IH (fun d Hd Hin => Hb d Hd (or_intror Hin)) pre E)
        as [[-> ->] | (pre' & -> & ->)].
      * left. auto.
      * right. exists pre'. auto.
Qed.

Lemma adjacent_suffix (x y pre t : str) :
  adjacent x y t -> adjacent x y (pre ++ t).
Proof.
  intros (pre' & q1 & q2 & q3 & post & H1 & H2 & H3 & ->).
  exists (pre ++ pre'), q1, q2, q3, post. rewrite <- app_assoc. auto.
Qed.

Lemma sharedQuote_suffix (o pre t : str) :
  sharedQuote o t -> sharedQuote o (pre ++ t).
Proof. apply adjacent_suffix. Qed.

Lemma no_occurrence_after (o b : str) :
  quoteFree o -> quoteFree b -> o <> b ->
  forall n t,
    List.length t <= n -> ~ sharedQuote o t ->
    ~ occurs o (replaceQuoted o b t).
Proof.
  intros Ho Hb Hne. induction n as [|n IH]; intros t Hle Hshare.
  - destruct t; [|simpl in Hle; lia].
    intros (pre & q1 & q2 & post & _ & _ & E). destruct pre; discriminate.
  - destruct t as [|c s].
    { intros (pre & q1 & q2 & post & _ & _ & E). destruct pre; discriminate. }
    intros (pre & p1 & p2 & post & Hp1 & Hp2 & E).
    destruct (quotedAt o (c :: s)) eqn:Hq.
    + apply quotedAt_spec in Hq as (q1 & q2 & rest & H1 & H2 & [= -> ->]).
      rewrite (replaceQuoted_hit _ _ _ _ _ H1 H2) in E.
      assert (List.length rest <= n) as Hrest.
      { simpl in Hle. rewrite length_app in Hle. simpl in Hle. lia. }
      assert (~ sharedQuote o rest) as Hshare'.
      { intros H. apply Hshare.
        apply (sharedQuote_suffix o (q1 :: o ++ [q2])) in H.
        cbn [app] in H. rewrite <- app_assoc in H. exact H. }
      destruct pre as [|d pre].
      * injection E as _ E.
        apply first_quote_unique in E as (E & _); auto.
        left. reflexivity.
      * injection E as _ E.
        apply after_built_path in E as [[-> E] | (pre' & -> & E)]; auto.
        -- apply replaceQuoted_starts in E as (q & rest' & Hq' & ->); auto.
           apply Hshare. exists [], q1, q2, q, rest'. auto.
        -- apply (IH rest Hrest Hshare'). exists pre', p1, p2, post. auto.
    + rewrite (replaceQuoted_miss _ _ _ _ Hq) in E.
      destruct pre as [|d pre].
      * injection E as -> E.
        apply replaceQuoted_starts in E as (q & rest' & Hq' & ->); auto.
        assert (quotedAt o (p1 :: o ++ q :: rest') = true) as Hyes;
          [|congruence].
        apply quotedAt_spec. exists p1, q, rest'. auto.
      * injection E as _ E. apply (IH s).
        -- simpl in Hle. lia.
        -- intros H. apply Hshare. apply (sharedQuote_suffix o [c]) in H.
           exact H.
        -- exists pre, p1, p2, post. auto.
Qed.

Lemma quotedAt_not_quote (o : str) (c : ascii) (s : str) :
  ~ In c quotes -> quotedAt o (c :: s) = false.
Proof.
  intros Hc. unfold quotedAt. destruct (mem c quotes) eqn:E; [|reflexivity].
  apply mem_In in E. contradiction.
Qed.

Lemma quoteFree_tail (c : ascii) (a : str) :
  quoteFree (c :: a) -> quoteFree a.
Proof. intros H d Hd Hin. apply (H d Hd). right. exact Hin. Qed.

Lemma quoteFree_head (c : ascii) (a : str) :
  quoteFree (c :: a) -> ~ In c quotes.
Proof. intros H Hc. apply (H c Hc). left. reflexivity. Qed.

(** A stretch without quote characters is kept. *)
Lemma replaceQuoted_keeps (o b a s : str) :
  quoteFree a -> replaceQuoted o b (a ++ s) = a ++ replaceQuoted o b s.
Proof.
  intros Ha. induction a as [|c a IH]; [reflexivity|].
  cbn [app].
  rewrite (replaceQuoted_miss _ _ _ _
             (quotedAt_not_quote o c _ (quoteFree_head _ _ Ha))).
  f_equal. apply IH. apply (quoteFree_tail _ _ Ha).
Qed.

(** Two paths between quote characters at the start of the rewritten text,
    neither being the built path, stood there in the text. *)
Lemma replaceQuoted_starts_two (o b x y : str) (p2 p3 : ascii) (post : str) :
  quoteFree b -> quoteFree x -> quoteFree y -> y <> b ->
  In p2 quotes -> In p3 quotes ->
  forall s,
    replaceQuoted o b s = x ++ p2 :: y ++ p3 :: post ->
    exists q2 q3 rest,
      In q2 quotes /\ In q3 quotes /\ s = x ++ q2 :: y ++ q3 :: rest.
Proof.
  intros Hb Hx Hy Hne Hp2 Hp3 s E.
  destruct (replaceQuoted_starts o b x p2 _ Hx Hp2 s E)
    as (q2 & rest' & Hq2 & ->).
  rewrite (replaceQuoted_keeps _ _ _ _ Hx) in E. apply app_inv_head in E.
  destruct (quotedAt o (q2 :: rest')) eqn:Hq.
  - apply quotedAt_spec in Hq as (q & q' & r & H1 & H2 & [= -> ->]).
    rewrite (replaceQuoted_hit _ _ _ _ _ H1 H2) in E. injection E as _ E.
    apply first_quote_unique in E as (E & _); auto; [congruence|].
    left. reflexivity.
  - rewrite (replaceQuoted_miss _ _ _ _ Hq) in E. injection E as _ E.
    destruct (replaceQuoted_starts o b y p3 _ Hy Hp3 rest' E)
      as (q3 & rest & Hq3 & ->).
    exists q2, q3, rest. auto.
Qed.

(** A quoted path of the rewritten text, other than the built path, stood
    in the text, unless it follows a replaced occurrence whose closing quote
    it shared. *)
Lemma occurs_reflected (o b x : str) :
  quoteFree b -> quoteFree x -> x <> b ->
  forall n t,
    List.length t <= n ->
    occurs x (replaceQuoted o b t) -> occurs x t \/ adjacent o x t.
Proof.
  intros Hb Hx Hne. induction n as [|n IH]; intros t Hle Hocc.
  - destruct t; [|simpl in Hle; lia].
    destruct Hocc as (pre & q1 & q2 & post & _ & _ & E).
    destruct pre; discriminate.
  - destruct t as [|c s].
    { destruct Hocc as (pre & q1 & q2 & post & _ & _ & E).
      destruct pre; discriminate. }
    destruct Hocc as (pre & p1 & p2 & post & Hp1 & Hp2 & E).
    destruct (quotedAt o (c :: s)) eqn:Hq.
    + apply quotedAt_spec in Hq as (q1 & q2 & rest & H1 & H2 & [= -> ->]).
      rewrite (replaceQuoted_hit _ _ _ _ _ H1 H2) in E.
      assert (List.length rest <= n) as Hrest.
      { simpl in Hle. rewrite length_app in Hle. simpl in Hle. lia. }
      destruct pre as [|d pre].
      * injection E as _ E.
        apply first_quote_unique in E as (E & _); auto; [congruence|].
        left. reflexivity.
      * injection E as _ E.
        apply after_built_path in E as [[-> E] | (pre' & -> & E)]; auto.
        -- apply replaceQuoted_starts in E as (q & rest' & Hq' & ->); auto.
           right. exists [], q1, q2, q, rest'. auto.
        -- destruct (IH rest Hrest) as [H|H].
           ++ exists pre', p1, p2, post. auto.
           ++ left. destruct H as (pr & a1 & a2 & po & Ha1 & Ha2 & ->).
              exists (q1 :: o ++ q2 :: pr), a1, a2, po.
              cbn [app]. rewrite <- app_assoc. auto.
           ++ right. apply (adjacent_suffix o x (q1 :: o ++ [q2])) in H.
              cbn [app] in H. rewrite <- app_assoc in H. exact H.
    + rewrite (replaceQuoted_miss _ _ _ _ Hq) in E.
      destruct pre as [|d pre].
      * injection E as -> E.
        apply replaceQuoted_starts in E as (q & rest' & Hq' & ->); auto.
        left. exists [], p1, q, rest'. auto.
      * injection E as _ E. destruct (IH s) as [H|H].
        -- simpl in Hle. lia.
        -- exists pre, p1, p2, post. auto.
        -- left. destruct H as (pr & a1 & a2 & po & Ha1 & Ha2 & ->).
           exists (c :: pr), a1, a2, po. auto.
        -- right. apply (adjacent_suffix o x [c]) in H. exact H.
Qed.

(** Two adjacent quoted paths of the rewritten text, neither being the
    built path, were adjacent in the text. *)
Lemma adjacent_reflected (o b x y : str) :
  quoteFree b -> quoteFree x -> quoteFree y -> x <> b -> y <> b ->
  forall n t,
    List.length t <= n ->
    adjacent x y (replaceQuoted o b t) -> adjacent x y t.
Proof.
  intros Hb Hx Hy Hxb Hyb. induction n as [|n IH]; intros t Hle Hadj.
  - destruct t; [|simpl in Hle; lia].
    destruct Hadj as (pre & q1 & q2 & q3 & post & _ & _ & _ & E).
    destruct pre; discriminate.
  - destruct t as [|c s].
    { destruct Hadj as (pre & q1 & q2 & q3 & post & _ & _ & _ & E).
      destruct pre; discriminate. }
    destruct Hadj as (pre & p1 & p2 & p3 & post & Hp1 & Hp2 & Hp3 & E).
    destruct (quotedAt o (c :: s)) eqn:Hq.
    + apply quotedAt_spec in Hq as (q1 & q2 & rest & H1 & H2 & [= -> ->]).
      rewrite (replaceQuoted_hit _ _ _ _ _ H1 H2) in E.
      assert (List.length rest <= n) as Hrest.
      { simpl in Hle. rewrite length_app in Hle. simpl in Hle. lia. }
      destruct pre as [|d pre].
      * injection E as _ E.
        apply first_quote_unique in E as (E & _); auto; [congruence|].
        left. reflexivity.
      * injection E as _ E.
        apply after_built_path in E as [[-> E] | (pre' & -> & E)]; auto.
        -- apply replaceQuoted_starts_two in E
             as (a2 & a3 & r & Ha2 & Ha3 & ->); auto.
           exists (q1 :: o), q2, a2, a3, r. auto.
        -- assert (adjacent x y rest) as H.
           { apply (IH rest Hrest). exists pre', p1, p2, p3, post. auto. }
           apply (adjacent_suffix x y (q1 :: o ++ [q2])) in H.
           cbn [app] in H. rewrite <- app_assoc in H. exact H.
    + rewrite (replaceQuoted_miss _ _ _ _ Hq) in E.
      destruct pre as [|d pre].
      * injection E as -> E.
        apply replaceQuoted_starts_two in E
          as (a2 & a3 & r & Ha2 & Ha3 & ->); auto.
        exists [], p1, a2, a3, r. auto.
      * injection E as _ E.
        assert (adjacent x y s) as H.
        { apply (IH s); [simpl in Hle; lia|].
          exists pre, p1, p2, p3, post. auto. }
        apply (adjacent_suffix x y [c]) in H. exact H.
Qed.

Lemma replaceQuotedAll_invariant (O : list str) :
  Forall quoteFree O ->
  forall builtFiles,
    Forall
      (fun m =>
         In (originalPath m) O /\ quoteFree (builtPath m)
         /\ ~ In (builtPath m) O)
      builtFiles ->
    forall t,
      noAdjacent O t ->
      noAdjacent O (replaceQuotedAll builtFiles t)
      /\ (forall x, In x O -> ~ occurs x t ->
            ~ occurs x (replaceQuotedAll builtFiles t))
      /\ (forall m, In m builtFiles ->
            ~ occurs (originalPath m) (replaceQuotedAll builtFiles t)).
Proof.
  intros HO. rewrite Forall_forall in HO.
  induction 1 as [|[o b] builtFiles (Ho & Hb & HbO) _ IH]; intros t Hadj.
  - split; [exact Hadj|]. split; [auto | intros m []].
  - cbn [originalPath builtPath] in Ho, Hb, HbO.
    unfold replaceQuotedAll. cbn [fold_left originalPath builtPath].
    fold (replaceQuotedAll builtFiles (replaceQuoted o b t)).
    assert (forall x, In x O -> x <> b) as Hne.
    { intros x Hx ->. contradiction. }
    assert (noAdjacent O (replaceQuoted o b t)) as Hadj1.
    { intros x y Hx Hy H. apply (Hadj x y Hx Hy).
      apply (adjacent_reflected o b x y Hb (HO x Hx) (HO y Hy)
               (Hne x Hx) (Hne y Hy) (List.length t) t (le_n _) H). }
    assert (forall x, In x O -> ~ occurs x t ->
                      ~ occurs x (replaceQuoted o b t)) as Hkeep.
    { intros x Hx Hno H.
      destruct (occurs_reflected o b x Hb (HO x Hx) (Hne x Hx)
                  (List.length t) t (le_n _) H) as [H'|H'].
      - contradiction.
      - apply (Hadj o x Ho Hx H'). }
    assert (~ occurs o (replaceQuoted o b t)) as Hdone.
    { apply (no_occurrence_after o b (HO o Ho) Hb (Hne o Ho)
               (List.length t) t (le_n _)).
      apply (Hadj o o Ho Ho). }
    destruct (IH (replaceQuoted o b t) Hadj1) as (IH1 & IH2 & IH3).
    split; [exact IH1|]. split.
    + intros x Hx Hno. apply (IH2 x Hx). apply (Hkeep x Hx Hno).
    + intros m [<- | Hm].
      * cbn [originalPath]. apply (IH2 o Ho Hdone).
      * apply (IH3 m Hm).
Qed.

(** The claim C6 as stated fails.  A path written by one mapping can be
    the original path of another, and of two quoted occurrences that share
    a quote character the second stays. *)
Lemma quoted_original_remains :
  (rewriteManifestAll collidingMappings (lit "'a.js'")
   = Ok (lit "'build/a.js'")
   /\ test (manifestPattern (lit "build/a.js")) (lit "'build/a.js'") = true)
  /\ (rewriteManifestAll [mainMapping] (lit "'main.js'main.js'")
      = Ok (lit "'build/main.js'main.js'")
      /\ test (manifestPattern (lit "main.js")) (lit "'build/main.js'main.js'")
         = true).
Proof. repeat split. Qed.

(** C6, amended. Let the paths of the mappings hold no quote character,
    the built paths no dollar sign, and let no built path be the original
    path of a mapping.  If in the manifest no two quoted original paths
    share a quote character, then after the rewrite the text holds no
    original path of a mapping between quote characters. *)
Theorem no_quoted_original_remains (builtFiles : list BuildResult) (t : str) :
  Forall
    (fun m =>
       quoteFree (originalPath m) /\ quoteFree (builtPath m)
       /\ ~ In dollar (builtPath m)
       /\ ~ In (builtPath m) (map originalPath builtFiles))
    builtFiles ->
  noAdjacent (map originalPath builtFiles) t ->
  exists t',
    rewriteManifestAll builtFiles t = Ok t'
    /\ forall m, In m builtFiles ->
         test (manifestPattern (originalPath m)) t' = false.
Proof.
  intros Hm Hadj. rewrite Forall_forall in Hm.
  exists (replaceQuotedAll builtFiles t). split.
  - apply rewriteManifestAll_fold. apply Forall_forall.
    intros m Hin. apply (Hm m Hin).
  - destruct (replaceQuotedAll_invariant (map originalPath builtFiles))
      with (builtFiles := builtFiles) (t := t) as (_ & _ & Hnone).
    + apply Forall_forall. intros x Hx.
      apply in_map_iff in Hx as (m & <- & Hin). apply (Hm m Hin).
    + apply Forall_forall. intros m Hin.
      destruct (Hm m Hin) as (_ & Hb & _ & HbO).
      split; [apply in_map; exact Hin | auto].
    + exact Hadj.
    + intros m Hin. destruct (test (manifestPattern (originalPath m))
                                (replaceQuotedAll builtFiles t)) eqn:E;
        [|reflexivity].
      apply test_occurs in E. exfalso. apply (Hnone m Hin E).
Qed.

Lemma adjacent_test (x y t : str) :
  adjacent x y t -> test (adjacentPattern x y) t = true.
Proof.
  intros (pre & q1 & q2 & q3 & post & H1 & H2 & H3 & ->).
  apply test_true.
  exists pre, (q1 :: x ++ q2 :: y ++ q3 :: post),
    (q1 :: x ++ q2 :: y ++ [q3]), post.
  split; [reflexivity|]. unfold adjacentPattern.
  apply matchPrefix_class.
  exists q1, (x ++ q2 :: y ++ q3 :: post), (x ++ q2 :: y ++ [q3]).
  split; [apply mem_In; exact H1|]. split; [reflexivity|].
  split; [reflexivity|].
  apply matchPrefix_chars. exists (q2 :: y ++ q3 :: post), (q2 :: y ++ [q3]).
  split; [reflexivity|]. split; [reflexivity|].
  apply (matchPrefix_quoted quotes [] y). exists q2, q3.
  repeat split; apply mem_In; assumption.
Qed.

Lemma noAdjacent_test (O : list str) (t : str) :
  forallb (fun x => forallb (fun y => negb (test (adjacentPattern x y) t)) O) O
  = true ->
  noAdjacent O t.
Proof.
  intros H x y Hx Hy Hadj. rewrite forallb_forall in H.
  specialize (H x Hx). rewrite forallb_forall in H. specialize (H y Hy).
  rewrite (adjacent_test _ _ _ Hadj) in H. discriminate.
Qed.

Lemma quoteFree_mem (s : str) :
  mem squote s || mem dquote s = false -> quoteFree s.
Proof.
  intros H. apply orb_false_iff in H as [Hs Hd].
  intros c [<- | [<- | []]] Hin; apply mem_In in Hin; congruence.
Qed.

Lemma not_In_includes (xs : list str) (x : str) :
  includes xs x = false -> ~ In x xs.
Proof.
  intros H Hin. assert (includes xs x = true) as Hyes; [|congruence].
  apply existsb_exists. exists x. split; [exact Hin | apply str_eqb_refl].
Qed.

Lemma no_quoted_original_remains_witness :
  let scriptMapping := {| originalPath := lit "web/script.js";
                          builtPath := lit "web/build/script.js" |} in
  exists t',
    rewriteManifestAll [mainMapping; scriptMapping]
      (lit "client_scripts { 'main.js', 'web/script.js' }") = Ok t'
    /\ test (manifestPattern (lit "main.js")) t' = false
    /\ test (manifestPattern (lit "web/script.js")) t' = false.
Proof.
  intros scriptMapping.
  destruct (no_quoted_original_remains [mainMapping; scriptMapping]
              (lit "client_scripts { 'main.js', 'web/script.js' }"))
    as (t' & Ht' & Hnone).
  - repeat constructor;
      try (apply quoteFree_mem; reflexivity);
      try (apply not_In_mem; reflexivity);
      try (apply not_In_includes; reflexivity).
  - apply noAdjacent_test. reflexivity.
  - exists t'. split; [exact Ht'|]. split.
    + apply (Hnone mainMapping). left. reflexivity.
    + apply (Hnone scriptMapping). right. left. reflexivity.
Defined.

(** ** Quote characters that do not agree *)








(** ** What remains of the original paths in an HTML text *)

Lemma htmlQuotes_In (q : ascii) : mem q htmlQuotes = true <-> In q quotes.
Proof.
  rewrite mem_In. unfold htmlQuotes, quotes. simpl. tauto.
Qed.

Lemma matchPrefix_html (attr o s m rest : str) :
  matchPrefix (htmlPattern attr o) s = Some (m, rest) <->
  exists q1 q2,
    In q1 quotes /\ In q2 quotes
    /\ s = attr ++ q1 :: o ++ q2 :: rest /\ m = attr ++ q1 :: o ++ [q2].
Proof.
  unfold htmlPattern. rewrite matchPrefix_quoted. split.
  - intros (q1 & q2 & H1 & H2 & H). apply htmlQuotes_In in H1, H2.
    exists q1, q2. auto.
  - intros (q1 & q2 & H1 & H2 & H). apply htmlQuotes_In in H1, H2.
    exists q1, q2. auto.
Qed.

Lemma attributeText_literal (attr b : str) :
  ~ In dollar attr -> ~ In dollar b -> ~ In dollar (attributeText attr b).
Proof.
  intros Ha Hb H. unfold attributeText in H.
  apply in_app_or in H as [H|[H|H]]; [auto | discriminate |].
  apply in_app_or in H as [H|[H|[]]]; [auto | discriminate].
Qed.

Section HtmlSubstitution.

Variables attr o b : str.
Hypothesis attr_literal : ~ In dollar attr.
Hypothesis attr_quoteFree : quoteFree attr.
Hypothesis b_literal : ~ In dollar b.

Local Abbreviation R := (replaceAttribute attr o b).

Lemma replaceAttribute_nil : R [] = [].
Proof.
  unfold replaceAttribute. rewrite replaceAll_scanFrom.
  apply scanFrom_nil. unfold htmlPattern, quoted.
  destruct (map Chr attr); discriminate.
Qed.

Lemma replaceAttribute_hit (q1 q2 : ascii) (rest : str) :
  In q1 quotes -> In q2 quotes ->
  R (attr ++ q1 :: o ++ q2 :: rest)
  = attr ++ dquote :: b ++ dquote :: R rest.
Proof.
  intros H1 H2. unfold replaceAttribute. rewrite !replaceAll_scanFrom.
  rewrite (scanFrom_hit _ _ _ _ (attr ++ q1 :: o ++ [q2]) rest).
  - rewrite (getSubstitution_literal _ _ _ _
               (attributeText_literal _ _ attr_literal b_literal)).
    unfold attributeText. rewrite <- !app_assoc. cbn [app].
    rewrite <- !app_assoc. cbn [app]. do 4 f_equal. unfold scanFrom.
    apply scan_literal_before.
    apply (attributeText_literal _ _ attr_literal b_literal).
  - apply matchPrefix_html. exists q1, q2. auto.
  - destruct attr; discriminate.
Qed.

Lemma replaceAttribute_miss (c : ascii) (s : str) :
  matchPrefix (htmlPattern attr o) (c :: s) = None ->
  R (c :: s) = c :: R s.
Proof.
  intros E. unfold replaceAttribute.
  rewrite !replaceAll_scanFrom, (scanFrom_miss _ _ _ _ _ E).
  f_equal. unfold scanFrom. apply scan_literal_before.
  apply (attributeText_literal _ _ attr_literal b_literal).
Qed.

(** A match needs a quote character where the attribute name ends. *)
Lemma match_at_first_quote (a : str) (q : ascii) (rest m r : str) :
  quoteFree a -> In q quotes ->
  matchPrefix (htmlPattern attr o) (a ++ q :: rest) = Some (m, r) ->
  a = attr /\ exists q2, In q2 quotes /\ rest = o ++ q2 :: r.
Proof.
  intros Ha Hq E.
  apply matchPrefix_html in E as (q1 & q2 & H1 & H2 & E & _).
  apply first_quote_unique in E as (-> & _ & ->); auto.
  split; [reflexivity|]. exists q2. auto.
Qed.

Lemma replaceAttribute_quoteFree (t : str) : quoteFree t -> R t = t.
Proof.
  induction t as [|c t IH]; intros Ht; [apply replaceAttribute_nil|].
  rewrite replaceAttribute_miss.
  - f_equal. apply IH. apply (quoteFree_tail _ _ Ht).
  - destruct (matchPrefix (htmlPattern attr o) (c :: t)) as [[m r]|] eqn:E;
      [|reflexivity].
    apply matchPrefix_html in E as (q1 & q2 & H1 & H2 & E & _).
    exfalso. apply (Ht q1 H1). rewrite E. apply in_or_app. right. left.
    reflexivity.
Qed.

(** The first quote character of the text opens a replaced attribute
    value. *)
Lemma replaceAttribute_first_hit (a0 : str) (q1 q2 : ascii) (rest : str) :
  quoteFree a0 -> In q1 quotes -> In q2 quotes ->
  R (a0 ++ attr ++ q1 :: o ++ q2 :: rest)
  = a0 ++ attr ++ dquote :: b ++ dquote :: R rest.
Proof.
  intros Ha0 H1 H2. induction a0 as [|c a0 IH].
  - apply replaceAttribute_hit; assumption.
  - cbn [app]. rewrite replaceAttribute_miss.
    + f_equal. apply IH. apply (quoteFree_tail _ _ Ha0).
    + destruct (matchPrefix (htmlPattern attr o)
                  (c :: a0 ++ attr ++ q1 :: o ++ q2 :: rest))
        as [[m r]|] eqn:E; [|reflexivity].
      change (c :: a0 ++ attr ++ q1 :: o ++ q2 :: rest)
        with ((c :: a0) ++ attr ++ q1 :: o ++ q2 :: rest) in E.
      rewrite app_assoc in E.
      apply match_at_first_quote in E as (E & _); auto.
      * apply (f_equal (@List.length ascii)) in E.
        rewrite length_app in E. simpl in E. lia.
      * intros d Hd Hin. apply in_app_or in Hin as [Hin|Hin].
        -- apply (Ha0 d Hd Hin).
        -- apply (attr_quoteFree d Hd Hin).
Qed.

(** The first quote character of the text opens no match: it is kept. *)
Lemma replaceAttribute_first_miss (a : str) (q : ascii) (rest : str) :
  quoteFree a -> In q quotes ->
  (forall a0 q2 r, In q2 quotes -> a = a0 ++ attr -> rest <> o ++ q2 :: r) ->
  R (a ++ q :: rest) = a ++ q :: R rest.
Proof.
  intros Ha Hq. induction a as [|c a IH]; intros Hno.
  - cbn [app]. rewrite replaceAttribute_miss; [reflexivity|].
    destruct (matchPrefix (htmlPattern attr o) (q :: rest)) as [[m r]|] eqn:E;
      [|reflexivity].
    assert (quoteFree []) as Hnil by (intros d _ []).
    apply (match_at_first_quote [] q rest m r Hnil Hq) in E
      as (E & q2 & H2 & Hr).
    exfalso. apply (Hno [] q2 r H2); [rewrite <- E; reflexivity | exact Hr].
  - cbn [app]. rewrite replaceAttribute_miss.
    + f_equal. apply IH; [apply (quoteFree_tail _ _ Ha)|].
      intros a0 q2 r H2 ->. apply (Hno (c :: a0) q2 r H2). reflexivity.
    + destruct (matchPrefix (htmlPattern attr o) (c :: a ++ q :: rest))
        as [[m r]|] eqn:E; [|reflexivity].
      apply (match_at_first_quote (c :: a) q rest m r Ha Hq) in E
        as (E & q2 & H2 & Hr).
      exfalso. apply (Hno [] q2 r H2); [rewrite <- E; reflexivity | exact Hr].
Qed.

Lemma opensMatch_true (a : str) (q : ascii) (rest : str) :
  opensMatch attr o a q rest = true ->
  exists a0 q2 r, In q2 quotes /\ a = a0 ++ attr /\ rest = o ++ q2 :: r.
Proof.
  unfold opensMatch. rewrite andb_true_iff, endsWith_spec, quotedAt_spec.
  intros [[a0 ->] (q1 & q2 & r & _ & H2 & [= _ ->])].
  exists a0, q2, r. auto.
Qed.

Lemma opensMatch_false (a : str) (q : ascii) (rest : str) :
  In q quotes ->
  opensMatch attr o a q rest = false ->
  forall a0 q2 r, In q2 quotes -> a = a0 ++ attr -> rest <> o ++ q2 :: r.
Proof.
  intros Hq Hno a0 q2 r H2 -> ->.
  assert (opensMatch attr o (a0 ++ attr) q (o ++ q2 :: r) = true) as Hyes;
    [|congruence].
  unfold opensMatch. apply andb_true_iff. split.
  - apply endsWith_spec. exists a0. reflexivity.
  - apply quotedAt_spec. exists q, q2, r. auto.
Qed.

(** What the rewritten text starts with up to its first quote character,
    the text started with. *)
Lemma replaceAttribute_starts (a : str) (p : ascii) (post s : str) :
  quoteFree a -> In p quotes ->
  R s = a ++ p :: post ->
  exists q rest, In q quotes /\ s = a ++ q :: rest.
Proof.
  intros Ha Hp. revert a Ha. induction s as [|c s IH]; intros a Ha E.
  - rewrite replaceAttribute_nil in E. destruct a; discriminate.
  - destruct (matchPrefix (htmlPattern attr o) (c :: s)) as [[m r]|] eqn:Em.
    + apply matchPrefix_html in Em as (q1 & q2 & H1 & H2 & Es & _).
      rewrite Es in E |- *. rewrite (replaceAttribute_hit _ _ _ H1 H2) in E.
      apply first_quote_unique in E as (<- & _ & _); auto.
      * exists q1, (o ++ q2 :: r). auto.
      * right. left. reflexivity.
    + rewrite (replaceAttribute_miss _ _ Em) in E.
      destruct a as [|x a].
      * injection E as -> _. exists p, s. auto.
      * injection E as -> E.
        destruct (IH a (quoteFree_tail _ _ Ha) E) as (q & rest & Hq & ->).
        exists q, rest. auto.
Qed.

End HtmlSubstitution.

Lemma split_first_quote (t : str) :
  quoteFree t
  \/ exists a q rest, quoteFree a /\ In q quotes /\ t = a ++ q :: rest.
Proof.
  induction t as [|c t IH].
  - left. intros d _ [].
  - destruct (mem c quotes) eqn:Hc.
    + right. exists [], c, t. apply mem_In in Hc.
      split; [intros d _ [] | auto].
    + destruct IH as [Hfree | (a & q & rest & Ha & Hq & ->)].
      * left. intros d Hd [<- | Hin].
        -- apply mem_In in Hd. congruence.
        -- apply (Hfree d Hd Hin).
      * right. exists (c :: a), q, rest. split; [|auto].
        intros d Hd [<- | Hin].
        -- apply mem_In in Hd. congruence.
        -- apply (Ha d Hd Hin).
Qed.

(** An attribute name that ends where the text after a quote character
    ends, lies after that quote character. *)
Lemma suffix_after_quote (u name K w : str) (q : ascii) :
  In q quotes -> quoteFree name ->
  u ++ name = (K ++ [q]) ++ w ->
  exists l, u = (K ++ [q]) ++ l /\ w = l ++ name.
Proof.
  intros Hq Hname E. apply app_eq_app in E as [l [[-> ->] | [E ->]]].
  - exists l. auto.
  - destruct l as [|c l].
    + exists []. rewrite app_nil_r in *. split; [symmetry; exact E | reflexivity].
    + exfalso. destruct (@exists_last _ (c :: l)) as (l' & z & El);
        [discriminate|].
      rewrite El in *. rewrite app_assoc in E.
      apply app_inj_tail in E as [_ <-].
      apply (Hname q Hq). apply in_or_app. left. apply in_or_app. right.
      left. reflexivity.
Qed.

Lemma occursAfter_prefix (name x pre t : str) :
  occursAfter name x t -> occursAfter name x (pre ++ t).
Proof.
  intros (pre' & q1 & q2 & post & H1 & H2 & ->).
  exists (pre ++ pre'), q1, q2, post. rewrite <- app_assoc. auto.
Qed.

Lemma occursAfter_quote (name x t : str) :
  occursAfter name x t -> ~ quoteFree t.
Proof.
  intros (pre & q1 & q2 & post & H1 & _ & ->) Hfree.
  apply (Hfree q1 H1). apply in_or_app. right. apply in_or_app. right.
  left. reflexivity.
Qed.

(** An attribute value of the rewritten text, other than the built path,
    was an attribute value of the text, and it is not the one that the
    substitution replaces. *)
Lemma occursAfter_reflected (attr o b name x : str) :
  ~ In dollar attr -> quoteFree attr -> ~ In dollar b -> quoteFree b ->
  quoteFree name -> quoteFree x -> x <> b -> endsWith b name = false ->
  forall n t,
    List.length t <= n ->
    occursAfter name x (replaceAttribute attr o b t) ->
    occursAfter name x t /\ ~ (name = attr /\ x = o).
Proof.
  intros Hal Haq Hbl Hbq Hnq Hxq Hxb Hbn.
  induction n as [|n IH]; intros t Hle Hocc.
  - destruct t; [|simpl in Hle; lia].
    rewrite replaceAttribute_nil in Hocc by assumption.
    destruct Hocc as (pre & q1 & q2 & post & _ & _ & E).
    destruct pre, name; discriminate.
  - destruct (split_first_quote t) as [Hfree | (a & q & rest & Ha & Hq & ->)].
    { rewrite replaceAttribute_quoteFree in Hocc by assumption.
      exfalso. apply (occursAfter_quote _ _ _ Hocc Hfree). }
    destruct Hocc as (pre & p1 & p2 & post & Hp1 & Hp2 & E).
    rewrite app_assoc in E.
    destruct (opensMatch attr o a q rest) eqn:Hopen.
    + apply opensMatch_true in Hopen as (a0 & q2 & r & H2 & -> & ->).
      assert (quoteFree a0) as Ha0.
      { intros d Hd Hin. apply (Ha d Hd). apply in_or_app. left. exact Hin. }
      rewrite <- app_assoc in E.
      rewrite (replaceAttribute_first_hit attr o b Hal Haq Hbl a0 q q2 r
                 Ha0 Hq H2) in E.
      rewrite app_assoc in E.
      apply after_built_path in E as [[E1 E2] | (u & E1 & E2)]; auto.
      * apply first_quote_unique in E2 as (E2 & _); auto; [congruence|].
        right. left. reflexivity.
      * apply after_built_path in E2 as [[-> E2] | (u' & -> & E2)]; auto.
        -- change (pre ++ name = (a0 ++ attr) ++ dquote :: b)
             with (pre ++ name = (a0 ++ attr) ++ [dquote] ++ b) in E1.
           rewrite app_assoc in E1.
           apply suffix_after_quote in E1 as (l & _ & ->); auto.
           ++ assert (endsWith (l ++ name) name = true) as Hyes;
                [|congruence].
              apply endsWith_spec. exists l. reflexivity.
           ++ right. left. reflexivity.
        -- change (pre ++ name = (a0 ++ attr) ++ dquote :: b ++ dquote :: u')
             with (pre ++ name
                   = (a0 ++ attr) ++ (dquote :: b) ++ [dquote] ++ u') in E1.
           rewrite !app_assoc in E1.
           apply suffix_after_quote in E1 as (l & _ & ->); auto.
           ++ destruct (IH r) as [Hr Hneq].
              ** simpl in Hle. rewrite !length_app in Hle. simpl in Hle.
                 rewrite !length_app in Hle. simpl in Hle. lia.
              ** exists l, p1, p2, post. rewrite <- app_assoc in E2. auto.
              ** split; [|exact Hneq].
                 apply (occursAfter_prefix name x
                          ((a0 ++ attr) ++ q :: o ++ [q2])) in Hr.
                 rewrite <- !app_assoc in Hr. cbn [app] in Hr.
                 rewrite <- !app_assoc in Hr. cbn [app] in Hr.
                 rewrite <- !app_assoc. exact Hr.
           ++ right. left. reflexivity.
    + rewrite (replaceAttribute_first_miss attr o b Hal Haq Hbl a q rest
                 Ha Hq (opensMatch_false attr o a q rest Hq Hopen)) in E.
      apply after_built_path in E as [[E1 E2] | (u & E1 & E2)]; auto.
      * apply (replaceAttribute_starts attr o b Hal Haq Hbl) in E2
          as (q' & rest' & Hq' & ->); auto.
        split.
        -- exists pre, q, q', rest'. rewrite <- E1, <- app_assoc. auto.
        -- intros [-> ->].
           apply (opensMatch_false attr o a q _ Hq Hopen pre q' rest' Hq');
             auto.
      * change (pre ++ name = a ++ q :: u)
          with (pre ++ name = a ++ [q] ++ u) in E1.
        rewrite app_assoc in E1.
        apply suffix_after_quote in E1 as (l & _ & ->); auto.
        destruct (IH rest) as [Hr Hneq].
        -- rewrite length_app in Hle. simpl in Hle. lia.
        -- exists l, p1, p2, post. rewrite <- app_assoc in E2. auto.
        -- split; [|exact Hneq].
           apply (occursAfter_prefix name x (a ++ [q])) in Hr.
           rewrite <- app_assoc in Hr. exact Hr.
Qed.

(** Without a match the replacement leaves the text as it is. *)
Lemma scanFrom_no_match (r : regex) (repl : str) (t : str) :
  test r t = false -> forall before, scanFrom r repl before t = t.
Proof.
  induction t as [|c t IH]; intros Ht before; cbn [test] in Ht.
  - unfold scanFrom. rewrite scan_S.
    destruct (matchPrefix r []); [discriminate | reflexivity].
  - destruct (matchPrefix r (c :: t)) eqn:E; [discriminate|].
    rewrite (scanFrom_miss _ _ _ _ _ E). f_equal. apply IH. exact Ht.
Qed.

Lemma replaceAll_no_match (r : regex) (repl : str) (t : str) :
  test r t = false -> replaceAll r repl t = t.
Proof. intros Ht. apply (scanFrom_no_match r repl t Ht). Qed.

Lemma tryPath_text (st st' : htmlState) (p : str * str) (w w' : world) :
  tryPath st p w = (w', Ok st') ->
  fst st'
  = replaceAttribute (lit "href=") (fst p) (snd p)
      (replaceAttribute (lit "src=") (fst p) (snd p) (fst st)).
Proof.
  destruct p as [o b]. unfold tryPath. intros E.
  apply bind_Ok in E as (st1 & w1 & E1 & E2). cbn [fst snd].
  assert (fst st1 = replaceAttribute (lit "src=") o b (fst st)) as <-.
  { rewrite substitute_src in E1. unfold replaceAttribute, htmlPattern.
    destruct (test (quoted htmlQuotes (lit "src=") o) (fst st)) eqn:Ht;
      injection E1 as _ <-; [reflexivity|].
    symmetry. apply replaceAll_no_match. exact Ht. }
  rewrite substitute_href in E2. unfold replaceAttribute, htmlPattern.
  destruct (test (quoted htmlQuotes (lit "href=") o) (fst st1)) eqn:Ht;
    injection E2 as _ <-; [reflexivity|].
  symmetry. apply replaceAll_no_match. exact Ht.
Qed.

Lemma rewriteForMapping_text (h : host) (htmlDir : path) (b : BuildResult)
  (st st' : htmlState) (w w' : world) :
  rewriteForMapping h htmlDir st b w = (w', Ok st') ->
  fst st' = applySubstitutions (substitutions h htmlDir [b]) (fst st).
Proof.
  unfold rewriteForMapping, substitutions. cbn [flat_map].
  rewrite app_nil_r. fold (pathsToTry h htmlDir b).
  generalize (pathsToTry h htmlDir b) as ps. intros ps.
  revert st w. induction ps as [|p ps IH]; intros st w; cbn [foldM flat_map].
  - intros [= _ <-]. reflexivity.
  - intros E. apply bind_Ok in E as (st1 & w1 & E1 & E2).
    rewrite (IH _ _ E2), (tryPath_text _ _ _ _ _ E1). reflexivity.
Qed.

Lemma applySubstitutions_app (s1 s2 : list (str * (str * str))) (t : str) :
  applySubstitutions (s1 ++ s2) t
  = applySubstitutions s2 (applySubstitutions s1 t).
Proof. apply fold_left_app. Qed.

Lemma htmlPass_text (h : host) (htmlDir : path)
  (builtFiles : list BuildResult) (st st' : htmlState) (w w' : world) :
  foldM (rewriteForMapping h htmlDir) builtFiles st w = (w', Ok st') ->
  fst st' = applySubstitutions (substitutions h htmlDir builtFiles) (fst st).
Proof.
  revert st w. induction builtFiles as [|b builtFiles IH]; intros st w;
    cbn [foldM].
  - intros [= _ <-]. reflexivity.
  - intros E. apply bind_Ok in E as (st1 & w1 & E1 & E2).
    rewrite (IH _ _ E2), (rewriteForMapping_text _ _ _ _ _ _ _ E1).
    change (substitutions h htmlDir (b :: builtFiles))
      with (flat_map (fun p => [ (lit "src=", p); (lit "href=", p) ])
              (pathsToTry h htmlDir b)
            ++ substitutions h htmlDir builtFiles).
    rewrite applySubstitutions_app. unfold substitutions at 2.
    cbn [flat_map]. rewrite app_nil_r. reflexivity.
Qed.

Lemma cleanForm_spec (all : list (str * str)) (p : str * str) :
  cleanForm all p = true ->
  quoteFree (fst p) /\ quoteFree (snd p) /\ ~ In dollar (snd p)
  /\ endsWith (snd p) (lit "src=") = false
  /\ endsWith (snd p) (lit "href=") = false
  /\ forall p', In p' all -> fst p' <> snd p.
Proof.
  unfold cleanForm. rewrite !andb_true_iff, !negb_true_iff.
  intros [[[[[H1 H2] H3] H4] H5] H6].
  split; [apply quoteFree_mem; exact H1|].
  split; [apply quoteFree_mem; exact H2|].
  split; [apply not_In_mem; exact H3|].
  split; [exact H4|]. split; [exact H5|].
  intros p' Hin. rewrite forallb_forall in H6. specialize (H6 p' Hin).
  apply negb_true_iff, str_eqb_neq in H6. exact H6.
Qed.

Lemma In_substitutions (h : host) (htmlDir : path)
  (builtFiles : list BuildResult) (s : str * (str * str)) :
  In s (substitutions h htmlDir builtFiles) <->
  (fst s = lit "src=" \/ fst s = lit "href=")
  /\ In (snd s) (forms h htmlDir builtFiles).
Proof.
  unfold substitutions, forms. rewrite in_flat_map. split.
  - intros (b & Hb & Hs). apply in_flat_map in Hs as (p & Hp & Hs).
    assert (In p (flat_map (pathsToTry h htmlDir) builtFiles)) as Hin.
    { apply in_flat_map. exists b. auto. }
    destruct Hs as [<- | [<- | []]]; cbn [fst snd]; auto.
  - intros [Ha Hin]. apply in_flat_map in Hin as (b & Hb & Hp).
    exists b. split; [exact Hb|]. apply in_flat_map. exists (snd s).
    split; [exact Hp|]. destruct s as [a p]. cbn [fst snd] in *.
    destruct Ha as [-> | ->]; [left | right; left]; reflexivity.
Qed.

Lemma attribute_names (name : str) :
  name = lit "src=" \/ name = lit "href=" ->
  ~ In dollar name /\ quoteFree name.
Proof.
  intros [-> | ->]; (split; [apply not_In_mem | apply quoteFree_mem]);
    reflexivity.
Qed.

(** After the substitutions no attribute holds an original path any more. *)
Lemma applySubstitutions_clean (all : list (str * str)) :
  forallb (cleanForm all) all = true ->
  forall subs,
    (forall s, In s subs ->
       (fst s = lit "src=" \/ fst s = lit "href=") /\ In (snd s) all) ->
    forall t,
      (forall name p,
          (name = lit "src=" \/ name = lit "href=") -> In p all ->
          ~ occursAfter name (fst p) t ->
          ~ occursAfter name (fst p) (applySubstitutions subs t))
      /\ (forall s, In s subs ->
            ~ occursAfter (fst s) (fst (snd s)) (applySubstitutions subs t)).
Proof.
  intros Hall. rewrite forallb_forall in Hall.
  induction subs as [|[attr [o b]] subs IH]; intros Hsubs t.
  - split; [auto | intros s []].
  - destruct (Hsubs (attr, (o, b)) (or_introl eq_refl)) as [Hattr Hin].
    cbn [fst snd] in Hattr, Hin.
    destruct (attribute_names attr Hattr) as [Hal Haq].
    destruct (cleanForm_spec all (o, b) (Hall _ Hin))
      as (Hoq & Hbq & Hbl & Hsrc & Hhref & Hfresh).
    cbn [fst snd] in Hoq, Hbq, Hbl, Hsrc, Hhref, Hfresh.
    assert (forall name p,
               (name = lit "src=" \/ name = lit "href=") -> In p all ->
               occursAfter name (fst p) (replaceAttribute attr o b t) ->
               occursAfter name (fst p) t /\ ~ (name = attr /\ fst p = o))
      as Hreflect.
    { intros name p Hname Hp Hocc.
      destruct (attribute_names name Hname) as [_ Hnq].
      destruct (cleanForm_spec all p (Hall _ Hp)) as (Hxq & _).
      apply (occursAfter_reflected attr o b name (fst p) Hal Haq Hbl Hbq
               Hnq Hxq (Hfresh p Hp)
               ltac:(destruct Hname as [-> | ->]; assumption)
               (List.length t) t (le_n _) Hocc). }
    destruct (IH (fun s Hs => Hsubs s (or_intror Hs))
                (replaceAttribute attr o b t)) as [IH1 IH2].
    unfold applySubstitutions. cbn [fold_left fst snd].
    fold (applySubstitutions subs (replaceAttribute attr o b t)).
    split.
    + intros name p Hname Hp Hno. apply (IH1 name p Hname Hp).
      intros Hocc. apply Hno. apply (Hreflect name p Hname Hp Hocc).
    + intros s [<- | Hs]; [|apply (IH2 s Hs)].
      cbn [fst snd]. apply (IH1 attr (o, b) Hattr Hin). cbn [fst].
      intros Hocc.
      destruct (Hreflect attr (o, b) Hattr Hin Hocc) as [_ Hneq].
      apply Hneq. auto.
Qed.

Lemma test_occursAfter (attr x t : str) :
  test (htmlPattern attr x) t = true <-> occursAfter attr x t.
Proof.
  rewrite test_true. unfold occursAfter. split.
  - intros (pre & s & m & rest & -> & Hm).
    apply matchPrefix_html in Hm as (q1 & q2 & H1 & H2 & -> & _).
    exists pre, q1, q2, rest. auto.
  - intros (pre & q1 & q2 & post & H1 & H2 & ->).
    exists pre, (attr ++ q1 :: x ++ q2 :: post), (attr ++ q1 :: x ++ [q2]), post.
    split; [reflexivity|]. apply matchPrefix_html. exists q1, q2. auto.
Qed.

Lemma matchesAny_false (h : host) (htmlDir : path)
  (builtFiles : list BuildResult) (t : str) :
  (forall s, In s (substitutions h htmlDir builtFiles) ->
     ~ occursAfter (fst s) (fst (snd s)) t) ->
  matchesAny h htmlDir builtFiles t = false.
Proof.
  intros Hnone. destruct (matchesAny h htmlDir builtFiles t) eqn:E;
    [|reflexivity].
  exfalso. unfold matchesAny in E.
  apply existsb_exists in E as (b & Hb & E).
  apply existsb_exists in E as (p & Hp & E).
  assert (In p (forms h htmlDir builtFiles)) as Hin.
  { apply in_flat_map. exists b. auto. }
  unfold attributeMatches in E. apply orb_true_iff in E as [E | E];
    apply test_occursAfter in E.
  - apply (Hnone (lit "src=", p)); [|exact E].
    apply In_substitutions. auto.
  - apply (Hnone (lit "href=", p)); [|exact E].
    apply In_substitutions. auto.
Qed.

(** C7, amended. Let the paths of the mappings, in both of their forms,
    hold no quote character, and let no built path hold a dollar sign, end
    in [src=] or [href=], or be the original path of a mapping.  Then after
    one pass no [src] or [href] attribute holds an original path, and a
    second pass with the same mappings makes no substitution: the text is
    as it was and [updated] stays unset. *)
Theorem html_rewriter_idempotent (h : host) (htmlDir : path)
  (builtFiles : list BuildResult) (t0 t1 : str) (updated : bool)
  (w0 w1 w : world) :
  cleanMappings h htmlDir builtFiles = true ->
  htmlPass h htmlDir builtFiles t0 w0 = (w1, Ok (t1, updated)) ->
  matchesAny h htmlDir builtFiles t1 = false
  /\ htmlPass h htmlDir builtFiles t1 w = (w, Ok (t1, false)).
Proof.
  intros Hclean Hpass.
  assert (matchesAny h htmlDir builtFiles t1 = false) as Hquiet.
  { apply matchesAny_false. unfold htmlPass in Hpass.
    apply htmlPass_text in Hpass. cbn [fst] in Hpass. subst t1.
    apply (applySubstitutions_clean (forms h htmlDir builtFiles) Hclean).
    intros s Hs. apply In_substitutions. exact Hs. }
  split; [exact Hquiet|].
  apply (htmlPass_quiet h htmlDir builtFiles (t1, false) w Hquiet).
Qed.

Lemma html_rewriter_idempotent_witness :
  snd (htmlPass posix (__dirname posix) [mainMapping] (scriptTag "main.js")
         (mkWorld disk []))
  = Ok (scriptTag "build/main.js", true)
  /\ htmlPass posix (__dirname posix) [mainMapping] (scriptTag "build/main.js")
       (mkWorld disk [])
     = (mkWorld disk [], Ok (scriptTag "build/main.js", false)).
Proof.
  split; [reflexivity|].
  apply (html_rewriter_idempotent posix (__dirname posix) [mainMapping]
           (scriptTag "main.js") (scriptTag "build/main.js") true
           (mkWorld disk [])
           (mkWorld disk [LogReplaced (lit "main.js") (lit "build/main.js")])
           (mkWorld disk [])).
  - reflexivity.
  - reflexivity.
Defined.

(** ** Where the found files and the outputs lie *)

Lemma findHtmlFiles_html (tree : node) (dir : path) (files : list path) :
  findHtmlFiles tree dir = Ok files ->
  forall p, In p files -> foundBelow wantedHtml dir p.
Proof.
  unfold findHtmlFiles. intros Hfind p Hp.
  destruct (lookup dir tree) as [n|]; [|discriminate].
  apply walk_sound in Hfind as (new & -> & Hnew). simpl in Hp.
  rewrite Forall_forall in Hnew. apply (Hnew p Hp).
Qed.

Lemma outputPathOf_under (root rel : path) :
  rel <> [] ->
  outputPathOf (root ++ rel)
  = root ++ path_dirname rel ++ [lit "build"; path_basename rel].
Proof.
  intros Hne. unfold outputPathOf, path_join, path_basename.
  rewrite path_dirname_under by exact Hne.
  rewrite last_app_nonempty by exact Hne.
  rewrite <- !app_assoc. reflexivity.
Qed.

(** ** What discovery returns *)

Lemma assoc_name (x : str) (v : node) (es : list (str * node)) :
  assoc x es = Some v -> In (x, v) es.
Proof.
  induction es as [|[k w] es IH]; [discriminate|]. cbn [assoc].
  destruct (str_eqb k x) eqn:E.
  - apply str_eqb_eq in E. intros [= ->]. left. congruence.
  - intros H. right. apply IH. exact H.
Qed.

(** What the loop over the entries of a directory does with each entry,
    when it does not throw. *)
Lemma forEachEntry_each (wanted : str -> path -> bool) (dir : path)
  (files : list (str * node)) :
  forall acc out,
    forEachEntry (walk wanted) wanted dir files acc = Ok out ->
    (forall p, In p acc -> In p out)
    /\ forall x v,
         In (x, v) files ->
         match v with
         | File _ =>
             wanted x (path_join dir x) = true -> In (path_join dir x) out
         | Dir _ _ =>
             entered x = true ->
             exists acc1 out1,
               walk wanted (path_join dir x) v acc1 = Ok out1
               /\ forall p, In p out1 -> In p out
         | Broken _ => False
         end.
Proof.
  induction files as [|[file child] files IH]; intros acc out E.
  - injection E as <-. split; [auto | intros x v []].
  - cbn [forEachEntry] in E.
    destruct child as [c|l es|e]; cbn [statIsDirectory] in E;
      [| |discriminate].
    + assert (exists acc',
                 forEachEntry (walk wanted) wanted dir files acc' = Ok out
                 /\ (forall p, In p acc -> In p acc')
                 /\ (wanted file (path_join dir file) = true ->
                     In (path_join dir file) acc')) as (acc' & E' & H1 & H2).
      { destruct (wanted file (path_join dir file)).
        - exists (acc ++ [path_join dir file]). split; [exact E|].
          split; intros; apply in_or_app; [left | right; left]; auto.
        - exists acc. split; [exact E|]. split; [auto | discriminate]. }
      destruct (IH acc' out E') as [IH1 IH2]. split; [auto|].
      intros x v [[= <- <-] | Hin]; [auto | apply (IH2 x v Hin)].
    + destruct (entered file) eqn:He.
      * destruct (walk wanted (path_join dir file) (Dir l es) acc)
          as [acc'|e] eqn:Ew; [|discriminate].
        destruct (IH acc' out E) as [IH1 IH2].
        destruct (walk_sound wanted (Dir l es) _ _ _ Ew) as (new & -> & _).
        split; [intros p Hp; apply IH1, in_or_app; left; exact Hp|].
        intros x v [[= <- <-] | Hin]; [|apply (IH2 x v Hin)].
        intros _. exists acc, (acc ++ new). split; [exact Ew | exact IH1].
      * destruct (IH acc out E) as [IH1 IH2]. split; [exact IH1|].
        intros x v [[= <- <-] | Hin]; [|apply (IH2 x v Hin)].
        intros Habs. congruence.
Qed.

(** A file of the tree that lies below entered directories and passes the
    test is returned. *)
Lemma walk_complete (wanted : str -> path -> bool) (rel : path) :
  forall dir n acc out c,
    walk wanted dir n acc = Ok out ->
    rel <> [] -> lookup rel n = Some (File c) ->
    Forall (fun d => entered d = true) (removelast rel) ->
    wanted (last rel []) (dir ++ rel) = true ->
    In (dir ++ rel) out.
Proof.
  induction rel as [|x rel IH]; intros dir n acc out c Hw Hne Hl Hdirs Hwanted;
    [congruence|].
  destruct n as [c0|[|] es|e]; try discriminate.
  cbn [walk] in Hw. cbn [lookup] in Hl.
  destruct (assoc x es) as [v|] eqn:Ex; [|discriminate].
  apply assoc_name in Ex.
  destruct (forEachEntry_each wanted dir es acc out Hw) as [_ Heach].
  specialize (Heach x v Ex). destruct rel as [|y rel].
  - cbn [lookup] in Hl. injection Hl as ->. apply Heach. exact Hwanted.
  - destruct v as [c1|l es'|e]; cbn [lookup] in Hl; try discriminate.
    change (removelast (x :: y :: rel)) with (x :: removelast (y :: rel))
      in Hdirs.
    inversion Hdirs as [|? ? Hx Hrest]. subst.
    destruct (Heach Hx) as (acc1 & out1 & Hw1 & Hincl).
    apply Hincl.
    change (dir ++ x :: y :: rel) with (dir ++ [x] ++ y :: rel).
    rewrite app_assoc.
    apply (IH (path_join dir x) (Dir l es') acc1 out1 c Hw1);
      [discriminate | exact Hl | exact Hrest |].
    unfold path_join. rewrite <- app_assoc. exact Hwanted.
Qed.

Lemma entered_intro (d : str) :
  startsWith d (lit ".") = false /\ ~ In d IGNORE_DIRS -> entered d = true.
Proof.
  intros [Hdot Hin]. unfold entered. rewrite Hdot. cbn [negb andb].
  apply negb_true_iff. destruct (includes IGNORE_DIRS d) eqn:E; [|reflexivity].
  exfalso. apply Hin. unfold includes in E.
  apply existsb_exists in E as (y & Hy & E). apply str_eqb_eq in E.
  subst y. exact Hy.
Qed.

(** X5. Script discovery misses nothing: a file of the tree whose name
    ends in [.js], which lies below directories that are neither hidden nor
    ignored and is not in the ignored-file set, is among the paths that
    [findJsFiles] returns. *)
Theorem findJsFiles_complete (h : host) (tree : node) (dir rel : path)
  (files : list path) (c : option str) :
  findJsFiles h tree dir = Ok files ->
  rel <> [] ->
  lookup (dir ++ rel) tree = Some (File c) ->
  (forall d, In d (removelast rel) ->
     startsWith d (lit ".") = false /\ ~ In d IGNORE_DIRS) ->
  endsWith (last rel []) (lit ".js") = true ->
  shouldIgnoreFile h (dir ++ rel) = false ->
  In (dir ++ rel) files.
Proof.
  unfold findJsFiles. intros Hfind Hne Hl Hdirs Hjs Hig.
  rewrite lookup_app in Hl.
  destruct (lookup dir tree) as [n|]; [|discriminate].
  apply (walk_complete (wantedJs h) rel dir n [] files c Hfind Hne Hl).
  - apply Forall_forall. intros d Hd. apply entered_intro, Hdirs, Hd.
  - unfold wantedJs. rewrite Hjs, Hig. reflexivity.
Qed.

Lemma findJsFiles_complete_witness :
  In (__dirname posix ++ [lit "web"; lit "script.js"])
    [ __dirname posix ++ [lit "main.js"];
      __dirname posix ++ [lit "web"; lit "script.js"] ].
Proof.
  apply (findJsFiles_complete posix disk (__dirname posix)
           [lit "web"; lit "script.js"] _ (Some (lit "let b = 2;")) eq_refl).
  - discriminate.
  - reflexivity.
  - intros d [<- | []]. split; [reflexivity|].
    intros [H | [H | []]]; discriminate.
  - reflexivity.
  - reflexivity.
Defined.

(** X6. [findHtmlFiles] returns the HTML files of the tree and nothing
    else: every path it returns has a name that ends in [.html] and lies
    below directories that are neither hidden nor ignored, and every such
    file of the tree is returned. *)
Theorem findHtmlFiles_exact (tree : node) (dir : path) (files : list path) :
  findHtmlFiles tree dir = Ok files ->
  (forall p, In p files ->
     exists rel,
       p = dir ++ rel /\ rel <> []
       /\ (forall d, In d (removelast rel) ->
             startsWith d (lit ".") = false /\ ~ In d IGNORE_DIRS)
       /\ endsWith (last rel []) (lit ".html") = true)
  /\ (forall rel c,
        rel <> [] ->
        lookup (dir ++ rel) tree = Some (File c) ->
        (forall d, In d (removelast rel) ->
           startsWith d (lit ".") = false /\ ~ In d IGNORE_DIRS) ->
        endsWith (last rel []) (lit ".html") = true ->
        In (dir ++ rel) files).
Proof.
  intros Hfind. split.
  - intros p Hp.
    destruct (findHtmlFiles_html tree dir files Hfind p Hp)
      as (rel & -> & Hne & Hdirs & Hw).
    exists rel. split; [reflexivity|]. split; [exact Hne|]. split; [|exact Hw].
    intros d Hd. apply entered_spec. rewrite Forall_forall in Hdirs.
    apply Hdirs, Hd.
  - intros rel c Hne Hl Hdirs Hhtml. unfold findHtmlFiles in Hfind.
    rewrite lookup_app in Hl.
    destruct (lookup dir tree) as [n|]; [|discriminate].
    apply (walk_complete wantedHtml rel dir n [] files c Hfind Hne Hl).
    + apply Forall_forall. intros d Hd. apply entered_intro, Hdirs, Hd.
    + exact Hhtml.
Qed.

Lemma findHtmlFiles_exact_witness :
  findHtmlFiles disk (__dirname posix)
  = Ok [ __dirname posix ++ [lit "index.html"] ]
  /\ In (__dirname posix ++ [lit "index.html"])
       [ __dirname posix ++ [lit "index.html"] ].
Proof.
  split; [reflexivity|].
  apply (proj2 (findHtmlFiles_exact disk (__dirname posix) _ eq_refl)
           [lit "index.html"]
           (Some (lit "<script src='web/script.js'></script>"))).
  - discriminate.
  - reflexivity.
  - intros d [].
  - reflexivity.
Defined.

Lemma forEachEntry_distinct (wanted : str -> path -> bool) (dir : path)
  (files : list (str * node)) :
  Forall (fun e => uniqueNames (snd e) = true -> walkDistinct wanted (snd e))
    files ->
  distinct (map fst files) = true ->
  forallb (fun e => uniqueNames (snd e)) files = true ->
  forall acc out,
    forEachEntry (walk wanted) wanted dir files acc = Ok out ->
    exists new,
      out = acc ++ new /\ NoDup new
      /\ forall p, In p new ->
           exists x rel, In x (map fst files) /\ p = dir ++ x :: rel.
Proof.
  induction 1 as [|[file child] files Hc _ IH]; intros Hd Hu acc out E.
  - injection E as <-. exists []. rewrite app_nil_r.
    split; [reflexivity|]. split; [constructor | intros p []].
  - cbn [map fst distinct] in Hd. apply andb_true_iff in Hd as [Hfresh Hd].
    apply negb_true_iff, not_In_includes in Hfresh.
    cbn [forallb snd] in Hu. apply andb_true_iff in Hu as [Hu1 Hu].
    cbn [snd] in Hc. cbn [forEachEntry] in E.
    assert (forall new1 new2,
               NoDup new1 ->
               (forall p, In p new1 -> exists rel, p = dir ++ file :: rel) ->
               NoDup new2 ->
               (forall p, In p new2 ->
                  exists x rel, In x (map fst files) /\ p = dir ++ x :: rel) ->
               NoDup (new1 ++ new2)
               /\ forall p, In p (new1 ++ new2) ->
                    exists x rel,
                      In x (map fst ((file, child) :: files))
                      /\ p = dir ++ x :: rel) as Hjoin.
    { intros new1 new2 N1 P1 N2 P2. split.
      - apply NoDup_app; auto. intros p Hp1 Hp2.
        destruct (P1 p Hp1) as (rel1 & ->).
        destruct (P2 _ Hp2) as (y & rel2 & Hy & E2).
        apply app_inv_head in E2. injection E2 as -> _. contradiction.
      - intros p Hp. apply in_app_or in Hp as [Hp | Hp].
        + destruct (P1 p Hp) as (rel1 & ->). exists file, rel1.
          split; [left; reflexivity | reflexivity].
        + destruct (P2 p Hp) as (y & rel2 & Hy & ->). exists y, rel2.
          split; [right; exact Hy | reflexivity]. }
    destruct child as [c|l es|e]; cbn [statIsDirectory] in E;
      [| |discriminate].
    + destruct (wanted file (path_join dir file)).
      * destruct (IH Hd Hu _ _ E) as (new2 & -> & N2 & P2).
        destruct (Hjoin [path_join dir file] new2) as [N P]; auto.
        -- repeat constructor. intros [].
        -- intros p [<- | []]. exists []. reflexivity.
        -- exists ([path_join dir file] ++ new2).
           rewrite app_assoc. auto.
      * destruct (IH Hd Hu _ _ E) as (new2 & -> & N2 & P2).
        destruct (Hjoin [] new2) as [N P]; auto.
        -- constructor.
        -- intros p [].
        -- exists new2. auto.
    + destruct (entered file).
      * destruct (walk wanted (path_join dir file) (Dir l es) acc)
          as [acc'|e] eqn:Ew; [|discriminate].
        destruct (Hc Hu1 _ _ _ Ew) as (new1 & -> & N1 & P1).
        destruct (IH Hd Hu _ _ E) as (new2 & -> & N2 & P2).
        destruct (Hjoin new1 new2) as [N P]; auto.
        -- intros p Hp. destruct (P1 p Hp) as (rel & ->).
           exists rel. unfold path_join. rewrite <- app_assoc. reflexivity.
        -- exists (new1 ++ new2). rewrite app_assoc. auto.
      * destruct (IH Hd Hu _ _ E) as (new2 & -> & N2 & P2).
        destruct (Hjoin [] new2) as [N P]; auto.
        -- constructor.
        -- intros p [].
        -- exists new2. auto.
Qed.

Lemma walk_distinct (wanted : str -> path -> bool) (n : node) :
  uniqueNames n = true -> walkDistinct wanted n.
Proof.
  induction n as [c|l es IH|e] using node_induction;
    intros Hu d acc out E; try discriminate.
  destruct l; [|discriminate]. cbn [walk] in E.
  cbn [uniqueNames] in Hu. apply andb_true_iff in Hu as [Hd Hu].
  destruct (forEachEntry_distinct wanted d es IH Hd Hu acc out E)
    as (new & -> & N & P).
  exists new. split; [reflexivity|]. split; [exact N|].
  intros p Hp. destruct (P p Hp) as (x & rel & _ & ->).
  exists (x :: rel). reflexivity.
Qed.

(** X7. In a tree in which no directory holds two entries of the same
    name, discovery returns no path twice. *)
Theorem discovery_returns_each_once (h : host) (tree : node) (dir : path)
  (n : node) :
  lookup dir tree = Some n ->
  uniqueNames n = true ->
  (forall files, findJsFiles h tree dir = Ok files -> NoDup files)
  /\ (forall files, findHtmlFiles tree dir = Ok files -> NoDup files).
Proof.
  intros Hl Hu. unfold findJsFiles, findHtmlFiles. rewrite Hl.
  split; intros files E;
    destruct (walk_distinct _ n Hu dir [] files E) as (new & -> & N & _);
    exact N.
Qed.

Lemma discovery_returns_each_once_witness :
  NoDup [ __dirname posix ++ [lit "main.js"];
          __dirname posix ++ [lit "web"; lit "script.js"] ].
Proof.
  apply (proj1 (discovery_returns_each_once posix disk (__dirname posix)
                  resource eq_refl eq_refl)).
  reflexivity.
Defined.

(** ** Escaping *)

(** X8. A path that was escaped makes a pattern that stands for the path
    itself, whatever characters it holds: the pattern is accepted, it
    matches at the start of a text exactly when the text starts with the
    path, and it is found in a text exactly when the path stands somewhere
    in it. *)
Theorem escapeRegExp_literal (s : str) :
  newRegExp (escapeRegExp s) = Ok (map Chr s)
  /\ (forall t m rest,
        matchPrefix (map Chr s) t = Some (m, rest) <-> t = s ++ rest /\ m = s)
  /\ (forall t,
        test (map Chr s) t = true <-> exists pre post, t = pre ++ s ++ post).
Proof.
  assert (forall t m rest,
             matchPrefix (map Chr s) t = Some (m, rest)
             <-> t = s ++ rest /\ m = s) as Hmatch.
  { intros t m rest. rewrite <- (app_nil_r (map Chr s)).
    rewrite matchPrefix_chars. cbn [matchPrefix]. split.
    - intros (s' & m' & -> & -> & [= <- <-]). rewrite app_nil_r. auto.
    - intros [-> ->]. exists rest, []. rewrite app_nil_r. auto. }
  split; [|split; [exact Hmatch|]].
  - unfold newRegExp. rewrite escapeRegExp_flat_map.
    rewrite <- (app_nil_r (flat_map escapeChar s)), parseRegExp_escaped.
    cbn [parseRegExp option_map]. rewrite app_nil_r. reflexivity.
  - intros t. rewrite test_true. split.
    + intros (pre & u & m & rest & -> & Hm). apply Hmatch in Hm as [-> _].
      exists pre, rest. reflexivity.
    + intros (pre & post & ->). exists pre, (s ++ post), s, post.
      split; [reflexivity|]. apply Hmatch. auto.
Qed.

(** ** The loop over the scripts *)

Lemma buildFile_result (h : host) (filePath : path) (w : world) :
  exists w',
    buildFile h filePath w = (w', Ok (Some (mappingOf h filePath)))
    \/ buildFile h filePath w = (w', Ok None).
Proof.
  destruct (buildFile_total h filePath w) as (w' & [b|] & E).
  - exists w'. left. rewrite E.
    apply buildFile_Some, buildFileBody_Ok in E
      as (code & minified & obfuscated & _ & _ & _ & _ & ->).
    reflexivity.
  - exists w'. right. exact E.
Qed.

(** X9. The loop of [main] never throws, and what it hands on is, after
    the mappings it started with, the mappings of the files that were built,
    in the order of discovery: one per file at most, none of another
    file. *)
Theorem buildAll_in_order (h : host) (jsFiles : list path) :
  forall builtFiles w,
    exists w' built,
      buildAll h jsFiles builtFiles w = (w', Ok (builtFiles ++ built))
      /\ subsequence built (map (mappingOf h) jsFiles).
Proof.
  induction jsFiles as [|file jsFiles IH]; intros builtFiles w.
  - exists w, []. rewrite app_nil_r. split; [reflexivity | constructor].
  - cbn [buildAll map]. destruct (buildFile_result h file w) as (w1 & [E | E]);
      rewrite (bind_step _ _ _ _ _ E).
    + destruct (IH (builtFiles ++ [mappingOf h file]) w1)
        as (w' & built & -> & Hsub).
      exists w', (mappingOf h file :: built). rewrite <- app_assoc.
      split; [reflexivity | constructor; exact Hsub].
    + destruct (IH builtFiles w1) as (w' & built & -> & Hsub).
      exists w', built. split; [reflexivity | constructor; exact Hsub].
Qed.

Lemma buildAll_unreadable (h : host) (jsFiles : list path) :
  forall builtFiles w,
    (forall p, In p jsFiles -> exists e, readFileSync (fs w) p = Throw e) ->
    exists w',
      buildAll h jsFiles builtFiles w = (w', Ok builtFiles) /\ fs w' = fs w.
Proof.
  induction jsFiles as [|file jsFiles IH]; intros builtFiles w Hun.
  - exists w. auto.
  - destruct (Hun file (or_introl eq_refl)) as [e He].
    assert (buildFile h file w
            = (mkWorld (fs w) (console w ++ [LogErrorBuilding file e]),
               Ok None)) as E.
    { unfold buildFile, tryCatch, buildFileBody, bind, readFileSyncM, log.
      rewrite He. reflexivity. }
    cbn [buildAll]. rewrite (bind_step _ _ _ _ _ E).
    destruct (IH builtFiles
                (mkWorld (fs w) (console w ++ [LogErrorBuilding file e])))
      as (w' & -> & Hfs).
    + intros p Hp. apply Hun. right. exact Hp.
    + exists w'. auto.
Qed.

(** X10. When none of the scripts that discovery returns can be read (and
    so when it returns none), the run writes nothing: it ends normally with
    the file system as it was, without a [build] directory made and with the
    manifest and the HTML files untouched. *)
Theorem main_with_nothing_built (h : host) (w : world) (jsFiles : list path) :
  findJsFiles h (fs w) (__dirname h) = Ok jsFiles ->
  (forall p, In p jsFiles -> exists e, readFileSync (fs w) p = Throw e) ->
  snd (main h w) = Ok tt /\ fs (fst (main h w)) = fs w.
Proof.
  intros Hfind Hun.
  assert (exists w', main h w = (w', Ok tt) /\ fs w' = fs w)
    as (w' & E & Hfs); [|rewrite E; auto].
  unfold main.
  unfold bind at 1 2 3 4. unfold log at 1 2 3. cbn [fs console].
  rewrite Hfind. destruct jsFiles as [|f jsFiles].
  { eexists. split; reflexivity. }
  cbn [List.length Nat.eqb]. unfold bind at 1. unfold log at 1.
  unfold bind at 1.
  destruct (buildAll_unreadable h (f :: jsFiles) []
              (mkWorld (fs w)
                 ((((console w ++ [LogScanning]) ++ [LogIgnoringDirs])
                     ++ [LogIgnoringFiles])
                    ++ [LogFound (S (List.length jsFiles))])) Hun)
    as (w1 & E & Hfs).
  cbn [fs console]. rewrite E. unfold bind at 1. unfold log at 1.
  cbn [fs console List.length Nat.ltb Nat.leb]. eexists.
  split; [reflexivity | exact Hfs].
Qed.

Lemma main_with_nothing_built_witness :
  let tree :=
    Dir true
      [ (lit "srv",
         Dir true [ (lit "resource", Dir true [ (lit "bad.js", File None) ]) ]) ]
  in
  snd (main posix (mkWorld tree [])) = Ok tt
  /\ fs (fst (main posix (mkWorld tree []))) = tree.
Proof.
  intros tree.
  apply (main_with_nothing_built posix (mkWorld tree [])
           [ __dirname posix ++ [lit "bad.js"] ] eq_refl).
  intros p [<- | []]. exists EACCES. reflexivity.
Defined.

(** ** From a path to its text and back *)

Lemma plainName_spec (c : str) :
  plainName c = true ->
  ~ In slash c /\ ~ In backslash c /\ c <> [] /\ c <> lit "." /\ c <> dotdot.
Proof.
  unfold plainName. rewrite !andb_true_iff, !negb_true_iff.
  intros [[[[H1 H2] H3] H4] H5].
  repeat split;
    try (apply not_In_mem; assumption); apply str_eqb_neq; assumption.
Qed.

Lemma splitText_name (sep : ascii) (x : str) :
  (forall c, In c x -> Ascii.eqb c slash || Ascii.eqb c sep = false) ->
  forall cur rest,
    splitText sep cur (x ++ rest) = splitText sep (rev x ++ cur) rest.
Proof.
  induction x as [|c x IH]; intros Hx cur rest; [reflexivity|].
  cbn [app splitText]. rewrite (Hx c) by (left; reflexivity).
  rewrite IH by (intros c' Hc'; apply Hx; right; exact Hc').
  cbn [rev]. rewrite <- app_assoc. reflexivity.
Qed.

Lemma toSlash_plain (x : str) :
  ~ In backslash x -> normalizeSeparators x = x.
Proof.
  unfold normalizeSeparators. induction x as [|c x IH]; intros Hx;
    [reflexivity|].
  cbn [map]. rewrite IH by (intros Hin; apply Hx; right; exact Hin).
  unfold toSlash. destruct (Ascii.eqb c backslash) eqn:Ec; [|reflexivity].
  apply Ascii.eqb_eq in Ec. exfalso. apply Hx. left. exact Ec.
Qed.

Lemma plain_no_separator (sep : ascii) (x : str) :
  sep = slash \/ sep = backslash -> plainName x = true ->
  forall c, In c x -> Ascii.eqb c slash || Ascii.eqb c sep = false.
Proof.
  intros Hsep Hx c Hc.
  apply plainName_spec in Hx as (Hs & Hb & _).
  apply orb_false_iff. split; apply Ascii.eqb_neq; intros ->.
  - contradiction.
  - destruct Hsep as [-> | ->]; contradiction.
Qed.

(** The text of a path of plain names splits into its components. *)
Lemma splitText_render (sep : ascii) (rel : path) :
  sep = slash \/ sep = backslash ->
  forallb plainName rel = true ->
  splitText sep [] (normalizeSeparators (render sep rel)) = rel.
Proof.
  intros Hsep. induction rel as [|x rel IH]; intros Hrel; [reflexivity|].
  cbn [forallb] in Hrel. apply andb_true_iff in Hrel as [Hx Hrel].
  pose proof (plain_no_separator sep x Hsep Hx) as Hnone.
  pose proof (plainName_spec x Hx) as (_ & Hb & Hne & _).
  assert (exists c cs, rev x = c :: cs) as (c & cs & Erev).
  { destruct (rev x) as [|c cs] eqn:E; [|eauto].
    apply (f_equal (@rev ascii)) in E. rewrite rev_involutive in E.
    contradiction. }
  destruct rel as [|y rel].
  - cbn [render]. rewrite (toSlash_plain x Hb).
    rewrite <- (app_nil_r x) at 1.
    rewrite (splitText_name sep x Hnone), app_nil_r. cbn [splitText].
    rewrite Erev, <- Erev, rev_involutive. reflexivity.
  - change (render sep (x :: y :: rel))
      with (x ++ sep :: render sep (y :: rel)).
    unfold normalizeSeparators. rewrite map_app. cbn [map].
    fold (normalizeSeparators x).
    fold (normalizeSeparators (render sep (y :: rel))).
    rewrite (toSlash_plain x Hb), (splitText_name sep x Hnone), app_nil_r.
    cbn [splitText].
    assert (Ascii.eqb (toSlash sep) slash || Ascii.eqb (toSlash sep) sep
            = true) as ->.
    { destruct Hsep as [-> | ->]; reflexivity. }
    rewrite Erev, <- Erev, rev_involutive, (IH Hrel). reflexivity.
Qed.

Lemma joinStep_plain (rel : path) :
  forallb plainName rel = true ->
  forall dir, fold_left joinStep rel dir = dir ++ rel.
Proof.
  induction rel as [|x rel IH]; intros Hrel dir;
    [rewrite app_nil_r; reflexivity|].
  cbn [forallb] in Hrel. apply andb_true_iff in Hrel as [Hx Hrel].
  apply plainName_spec in Hx as (_ & _ & _ & Hdot & Hdotdot).
  cbn [fold_left]. unfold joinStep at 2.
  apply str_eqb_neq in Hdot, Hdotdot. rewrite Hdot, Hdotdot.
  rewrite (IH Hrel), <- app_assoc. reflexivity.
Qed.

(** Joining [__dirname] with the text of a path below it gives the path
    back. *)
Lemma path_join_text_relativeText (h : host) (rel : path) :
  sep h = slash \/ sep h = backslash ->
  forallb plainName rel = true ->
  path_join_text (sep h) (__dirname h)
    (normalizeSeparators (relativeText h (__dirname h ++ rel)))
  = __dirname h ++ rel.
Proof.
  intros Hsep Hrel. unfold path_join_text, relativeText.
  rewrite path_relative_under, (splitText_render (sep h) rel Hsep Hrel).
  apply joinStep_plain, Hrel.
Qed.

Lemma plain_output (rel : path) :
  rel <> [] -> forallb plainName rel = true ->
  forallb plainName (path_dirname rel ++ [lit "build"; path_basename rel])
  = true.
Proof.
  intros Hne Hrel. rewrite forallb_forall in Hrel |- *. intros x Hx.
  apply in_app_or in Hx as [Hx | [<- | [<- | []]]].
  - apply Hrel. unfold path_dirname in Hx.
    rewrite (app_removelast_last [] Hne). apply in_or_app. left. exact Hx.
  - reflexivity.
  - apply Hrel. unfold path_basename.
    rewrite (app_removelast_last [] Hne) at 2. apply in_or_app. right.
    left. reflexivity.
Qed.

(** The two document-relative forms of a mapping, when the names on the
    script's path are plain. *)
Lemma relativeFrom_mapping (h : host) (htmlDir rel : path) :
  sep h = slash \/ sep h = backslash ->
  rel <> [] -> forallb plainName rel = true ->
  relativeFrom h htmlDir (originalPath (mappingOf h (__dirname h ++ rel)))
  = normalizeSeparators
      (render (sep h) (path_relative htmlDir (__dirname h ++ rel)))
  /\ relativeFrom h htmlDir (builtPath (mappingOf h (__dirname h ++ rel)))
     = normalizeSeparators
         (render (sep h)
            (path_relative htmlDir (outputPathOf (__dirname h ++ rel)))).
Proof.
  intros Hsep Hne Hrel. unfold mappingOf, relativeFrom.
  cbn [originalPath builtPath].
  rewrite (path_join_text_relativeText h rel Hsep Hrel).
  rewrite (outputPathOf_under (__dirname h) rel Hne).
  rewrite (path_join_text_relativeText h _ Hsep (plain_output rel Hne Hrel)).
  split; reflexivity.
Qed.

(** X12. The document-relative pair that the HTML rewriter tries for a
    built script is the script's path and its output path taken relative
    to the HTML file's directory: passing through the root-relative text
    of the [BuildResult] and [path.join] loses nothing, as long as the
    names on the script's path are plain (not empty, [.] or [..], and
    free of slashes and backslashes). *)
Theorem document_relative_forms (h : host) (htmlDir rel : path) :
  sep h = slash \/ sep h = backslash ->
  rel <> [] -> forallb plainName rel = true ->
  let script := __dirname h ++ rel in
  pathsToTry h htmlDir (mappingOf h script)
  = [ (originalPath (mappingOf h script), builtPath (mappingOf h script));
      (normalizeSeparators
         (render (sep h) (path_relative htmlDir script)),
       normalizeSeparators
         (render (sep h) (path_relative htmlDir (outputPathOf script)))) ].
Proof.
  intros Hsep Hne Hrel script. unfold pathsToTry, script.
  destruct (relativeFrom_mapping h htmlDir rel Hsep Hne Hrel) as [-> ->].
  reflexivity.
Qed.

Lemma document_relative_forms_witness :
  pathsToTry posix [lit "srv"; lit "resource"; lit "web"]
    (mappingOf posix [lit "srv"; lit "resource"; lit "ui"; lit "app.js"])
  = [ (lit "ui/app.js", lit "ui/build/app.js");
      (lit "../ui/app.js", lit "../ui/build/app.js") ].
Proof.
  exact (document_relative_forms posix [lit "srv"; lit "resource"; lit "web"]
           [lit "ui"; lit "app.js"] (or_introl eq_refl)
           ltac:(discriminate) eq_refl).
Defined.

(** X13. For an HTML file that lies in the directory of a built script,
    the document-relative pair is the script's file name and that name
    under [build/]. *)
Theorem forms_beside_script (h : host) (rel : path) :
  sep h = slash \/ sep h = backslash ->
  rel <> [] -> forallb plainName rel = true ->
  let script := __dirname h ++ rel in
  let name := path_basename script in
  nth_error (pathsToTry h (path_dirname script) (mappingOf h script)) 1
  = Some (name, lit "build/" ++ name).
Proof.
  intros Hsep Hne Hrel script name. unfold pathsToTry. cbn [nth_error].
  subst name script.
  destruct (relativeFrom_mapping h (path_dirname (__dirname h ++ rel)) rel
              Hsep Hne Hrel) as [-> ->].
  rewrite (outputPathOf_under (__dirname h) rel Hne).
  rewrite (path_dirname_under (__dirname h) rel Hne).
  unfold path_basename. rewrite (last_app_nonempty (__dirname h) rel Hne).
  assert (plainName (last rel []) = true) as Hplain.
  { rewrite forallb_forall in Hrel. apply Hrel.
    rewrite (app_removelast_last [] Hne) at 2.
    apply in_or_app. right. left. reflexivity. }
  apply plainName_spec in Hplain as (_ & Hb & _).
  rewrite (app_removelast_last [] Hne) at 2.
  unfold path_dirname.
  rewrite !app_assoc, !path_relative_under.
  cbn [render].
  assert (normalizeSeparators (last rel []) = last rel []) as Hn
    by (apply toSlash_plain; exact Hb).
  change (@last (list ascii) rel []) with (@last str rel []).
  rewrite Hn. unfold normalizeSeparators. rewrite map_app. cbn [map].
  fold (normalizeSeparators (last rel [])). rewrite Hn.
  destruct Hsep as [-> | ->]; reflexivity.
Qed.

Lemma forms_beside_script_witness :
  nth_error
    (pathsToTry posix [lit "srv"; lit "resource"; lit "ui"]
       (mappingOf posix [lit "srv"; lit "resource"; lit "ui"; lit "app.js"]))
    1
  = Some (lit "app.js", lit "build/app.js").
Proof.
  exact (forms_beside_script posix [lit "ui"; lit "app.js"]
           (or_introl eq_refl) ltac:(discriminate) eq_refl).
Defined.

(** ** Failures *)

(** X14. A script that cannot be read, or whose minification or
    obfuscation throws, leaves the file system as it was: the [build]
    directory is made only once both transforms have returned.  The error
    is reported after the "building" notice, which is printed as soon as
    the file was read. *)
Theorem failed_transform_writes_nothing (h : host) (filePath : path)
  (w : world) (e : error) :
  let failed := LogErrorBuilding filePath e in
  let building := LogBuilding (relativeText h filePath) in
  (readFileSync (fs w) filePath = Throw e ->
   buildFile h filePath w
   = (mkWorld (fs w) (console w ++ [failed]), Ok None))
  /\ (forall code,
        readFileSync (fs w) filePath = Ok code ->
        minify h code = Throw e
        \/ (exists minified,
               minify h code = Ok minified
               /\ obfuscate h minified = Throw e) ->
        buildFile h filePath w
        = (mkWorld (fs w) ((console w ++ [building]) ++ [failed]), Ok None)).
Proof.
  intros failed building. split.
  - intros Hread.
    unfold buildFile, tryCatch, buildFileBody, bind, readFileSyncM.
    rewrite Hread. reflexivity.
  - intros code Hread Hfail.
    unfold buildFile, tryCatch, buildFileBody.
    unfold bind at 1 2. unfold readFileSyncM. rewrite Hread.
    unfold bind at 1. unfold log at 1. unfold bind at 1. unfold liftR at 1.
    destruct Hfail as [Hmin | (minified & Hmin & Hobf)]; rewrite Hmin.
    + reflexivity.
    + unfold bind at 1. unfold liftR at 1. rewrite Hobf. reflexivity.
Qed.

Lemma failed_transform_writes_nothing_witness :
  let bad := [lit "srv"; lit "resource"; lit "bad.js"] in
  let good := [lit "srv"; lit "resource"; lit "good.js"] in
  let e := TransformError (lit "Unexpected token") in
  buildFile posix bad (mkWorld flakyDisk [])
  = (mkWorld flakyDisk [LogErrorBuilding bad EACCES], Ok None)
  /\ buildFile rejecting good (mkWorld flakyDisk [])
     = (mkWorld flakyDisk [LogBuilding (lit "good.js");
                           LogErrorBuilding good e], Ok None).
Proof.
  split.
  - exact (proj1 (failed_transform_writes_nothing posix
                    [lit "srv"; lit "resource"; lit "bad.js"]
                    (mkWorld flakyDisk []) EACCES) eq_refl).
  - exact (proj2 (failed_transform_writes_nothing rejecting
                    [lit "srv"; lit "resource"; lit "good.js"]
                    (mkWorld flakyDisk [])
                    (TransformError (lit "Unexpected token")))
             (lit "ok") eq_refl (or_introl eq_refl)).
Defined.

(** X15. A manifest that is there but cannot be read is fatal, unlike a
    missing one: [updateManifest] throws the error of the read and writes
    nothing, and [main] throws it after the build loop, before any HTML
    file is looked at. *)
Theorem unreadable_manifest_is_fatal (h : host)
  (builtFiles : list BuildResult) (w : world) (e : error) :
  existsSync (fs w) (path_join (__dirname h) MANIFEST_FILE) = true ->
  readFileSync (fs w) (path_join (__dirname h) MANIFEST_FILE) = Throw e ->
  updateManifest h builtFiles w = (w, Throw e)
  /\ forall w0 jsFiles,
       findJsFiles h (fs w0) (__dirname h) = Ok jsFiles ->
       jsFiles <> [] ->
       builtFiles <> [] ->
       buildAll h jsFiles [] (afterScan w0 (List.length jsFiles))
       = (w, Ok builtFiles) ->
       main h w0
       = (mkWorld (fs w) (console w ++ [LogBuildComplete]), Throw e).
Proof.
  intros Hthere Hread.
  assert (forall c,
             updateManifest h builtFiles (mkWorld (fs w) c)
             = (mkWorld (fs w) c, Throw e)) as Hthrows.
  { intros c. unfold updateManifest, bind, existsSyncM, readFileSyncM.
    cbn [fs]. rewrite Hthere. cbn [negb fs]. rewrite Hread. reflexivity. }
  split.
  - destruct w as [f c]. apply Hthrows.
  - intros w0 jsFiles Hfind Hjs Hbuilt Hbuild.
    rewrite (main_after_build h w0 w jsFiles builtFiles Hfind Hjs Hbuild Hbuilt).
    unfold bind at 1. rewrite Hthrows. reflexivity.
Qed.

Lemma unreadable_manifest_is_fatal_witness :
  updateManifest posix [mainMapping] (mkWorld lockedDisk [])
  = (mkWorld lockedDisk [], Throw EACCES)
  /\ snd (main posix (mkWorld lockedDisk [])) = Throw EACCES.
Proof.
  split.
  - exact (proj1 (unreadable_manifest_is_fatal posix [mainMapping]
                    (mkWorld lockedDisk []) EACCES eq_refl eq_refl)).
  - pose (w0 := mkWorld lockedDisk []).
    pose (jsFiles := [[lit "srv"; lit "resource"; lit "main.js"]]).
    pose (w := fst (buildAll posix jsFiles [] (afterScan w0 1))).
    assert (existsSync (fs w) (path_join (__dirname posix) MANIFEST_FILE)
            = true) as Hthere by (vm_compute; reflexivity).
    assert (readFileSync (fs w) (path_join (__dirname posix) MANIFEST_FILE)
            = Throw EACCES) as Hread by (vm_compute; reflexivity).
    assert (buildAll posix jsFiles [] (afterScan w0 (List.length jsFiles))
            = (w, Ok [mainMapping])) as Hbuild by (vm_compute; reflexivity).
    change (snd (main posix w0) = Throw EACCES).
    rewrite (proj2 (unreadable_manifest_is_fatal posix [mainMapping] w EACCES
                      Hthere Hread)
               w0 jsFiles eq_refl ltac:(discriminate) ltac:(discriminate)
               Hbuild).
    reflexivity.
Defined.

Lemma forEachM_app {A} (body : A -> M unit) (xs ys : list A) (w : world) :
  forEachM body (xs ++ ys) w
  = match forEachM body xs w with
    | (w1, Ok _) => forEachM body ys w1
    | (w1, Throw e) => (w1, Throw e)
    end.
Proof.
  revert w. induction xs as [|x xs IH]; intros w; [reflexivity|].
  cbn [app forEachM]. unfold bind.
  destruct (body x w) as [w1 [[]|e]]; [apply IH | reflexivity].
Qed.

(** X16. The loop over the HTML files stops at the first one that cannot
    be read: [updateHtmlFiles] throws the error of that read, the files
    before it are as the rewriter left them, and the files after it are
    not looked at. *)
Theorem html_loop_stops_at_failure (h : host) (builtFiles : list BuildResult)
  (w w1 : world) (pre post : list path) (p : path) (e : error) :
  findHtmlFiles (fs w) (__dirname h) = Ok (pre ++ p :: post) ->
  forEachM (updateHtmlFile h builtFiles) pre
    (mkWorld (fs w)
       (console w ++ [LogUpdatingHtml (List.length (pre ++ p :: post))]))
  = (w1, Ok tt) ->
  readFileSync (fs w1) p = Throw e ->
  updateHtmlFiles h builtFiles w = (w1, Throw e).
Proof.
  intros Hfind Hpre Hread. unfold updateHtmlFiles.
  unfold bind at 1. rewrite Hfind.
  destruct (Nat.eqb _ 0) eqn:Elen.
  { apply Nat.eqb_eq in Elen. rewrite length_app in Elen. simpl in Elen. lia. }
  unfold bind at 1. unfold log at 1.
  rewrite forEachM_app, Hpre. cbn [forEachM]. unfold bind at 1.
  unfold updateHtmlFile at 1. unfold bind at 1. unfold readFileSyncM.
  rewrite Hread. reflexivity.
Qed.

Lemma html_loop_stops_at_failure_witness :
  let a := [lit "srv"; lit "resource"; lit "a.html"] in
  let c := [lit "srv"; lit "resource"; lit "c.html"] in
  let w := mkWorld lockedDisk [] in
  let w1 := fst (updateHtmlFiles posix [mainMapping] w) in
  snd (updateHtmlFiles posix [mainMapping] w) = Throw EACCES
  /\ readFileSync (fs w1) a
     = Ok (lit "<script src=" ++ dquote :: lit "build/main.js"
             ++ dquote :: lit "></script>")
  /\ readFileSync (fs w1) c = readFileSync lockedDisk c.
Proof.
  intros a c w w1.
  pose (b := [lit "srv"; lit "resource"; lit "b.html"]).
  pose (w' :=
          fst (forEachM (updateHtmlFile posix [mainMapping]) [a]
                 (mkWorld lockedDisk [LogUpdatingHtml 3]))).
  assert (forEachM (updateHtmlFile posix [mainMapping]) [a]
            (mkWorld (fs w)
               (console w ++ [LogUpdatingHtml (List.length ([a] ++ b :: [c]))]))
          = (w', Ok tt)) as Hpre by (vm_compute; reflexivity).
  assert (readFileSync (fs w') b = Throw EACCES) as Hread
    by (vm_compute; reflexivity).
  pose proof (html_loop_stops_at_failure posix [mainMapping] w w' [a] [c] b
                EACCES eq_refl Hpre Hread) as Hstop.
  subst w1. rewrite Hstop. cbn [fst snd].
  split; [reflexivity|]. split; vm_compute; reflexivity.
Defined.

(** ** The ignored files *)

(** X17. The ignored-file set is matched against the whole path from
    [__dirname]: a file whose path is made of plain names is ignored
    exactly when that path is [build.ts], [build.js] or
    [client/bridge.js], so a file of one of these names elsewhere in the
    tree is not. *)
Theorem ignored_by_whole_path (h : host) (rel : path) :
  sep h = slash \/ sep h = backslash ->
  forallb plainName rel = true ->
  shouldIgnoreFile h (__dirname h ++ rel) = true
  <-> In rel [ [lit "build.ts"]; [lit "build.js"];
               [lit "client"; lit "bridge.js"] ].
Proof.
  intros Hsep Hrel. unfold shouldIgnoreFile, relativeText.
  rewrite path_relative_under. split.
  - intros Hsome. apply existsb_exists in Hsome as (ip & Hip & Heq).
    apply str_eqb_eq in Heq.
    apply (f_equal (splitText (sep h) [])) in Heq.
    rewrite (splitText_render (sep h) rel Hsep Hrel) in Heq.
    destruct Hip as [<- | [<- | [<- | []]]]; rewrite Heq;
      destruct Hsep as [-> | ->]; cbn; auto.
  - intros Hin. apply existsb_exists.
    destruct Hin as [<- | [<- | [<- | []]]].
    + exists (lit "build.ts"). split; [left; reflexivity|].
      apply str_eqb_refl.
    + exists (lit "build.js"). split; [right; left; reflexivity|].
      apply str_eqb_refl.
    + exists (lit "client/bridge.js").
      split; [right; right; left; reflexivity|].
      destruct Hsep as [-> | ->]; reflexivity.
Qed.

Lemma ignored_by_whole_path_witness :
  shouldIgnoreFile posix
    [lit "srv"; lit "resource"; lit "client"; lit "bridge.js"] = true
  /\ shouldIgnoreFile posix
       [lit "srv"; lit "resource"; lit "web"; lit "build.js"] = false.
Proof.
  split.
  - apply (proj2 (ignored_by_whole_path posix [lit "client"; lit "bridge.js"]
                    (or_introl eq_refl) eq_refl)).
    right. right. left. reflexivity.
  - destruct (shouldIgnoreFile posix
                [lit "srv"; lit "resource"; lit "web"; lit "build.js"])
      eqn:E; [|reflexivity].
    apply (proj1 (ignored_by_whole_path posix [lit "web"; lit "build.js"]
                    (or_introl eq_refl) eq_refl)) in E.
    destruct E as [E | [E | [E | []]]]; discriminate.
Defined.
